(** * The quiche HTTP/3 adapter of curl: lib/vquic/quiche.c

    A shallow embedding of the adapter that sits between curl's transfer
    engine and the quiche QUIC/HTTP-3 engine, and the properties its
    design document states about it.

    Conventions of the embedding:
    - a byte buffer [mem, mem + len) is a [list ascii]; a [char *] into it
      is the offset of the byte it points to;
    - [size_t] offsets and counts that are bounded by [len] are [nat];
      the one place where an unsigned subtraction can wrap is written out;
    - the header array [nva] is a list of slots updated by index, a slot
      being [None] until it has been written;
    - the socket and the QUIC engine are external: their answers are
      given by finite scripts that the adapter consumes in call order,
      and every external call is recorded in a trace. *)

From Stdlib Require Import ZArith Ascii String Lia.
From stdpp Require Import base list.

(** ** Bytes and buffers *)

Abbreviation bytes := (list ascii).

Definition SP : ascii := " "%char.
Definition HT : ascii := "009"%char.
Definition CR : ascii := "013"%char.
Definition LF : ascii := "010"%char.
Definition COLON : ascii := ":"%char.

Definition CRLF : bytes := [CR; LF].

Global Instance byte_eq_dec : EqDecision ascii := ascii_dec.

Definition str (s : string) : bytes := list_ascii_of_string s.

(** [hdbuf[i]] for an offset inside the buffer. *)
Definition byte_at (mem : bytes) (p : nat) : ascii := default zero (mem !! p).

(** The [n] bytes starting at offset [p]: what a (pointer, length) pair of
    a [quiche_h3_header] denotes. *)
Definition sub (mem : bytes) (p n : nat) : bytes := take n (drop p mem).

Definition is_blank (c : ascii) : bool := Ascii.eqb c SP || Ascii.eqb c HT.

(** [memchr(mem + p, c, n)]: offset of the first [c] among the [n] bytes
    from offset [p] on, [None] for the null pointer. *)
Fixpoint memchr_from (s : bytes) (c : ascii) (n p : nat) : option nat :=
  match n, s with
  | S n', a :: s' => if Ascii.eqb a c then Some p else memchr_from s' c n' (S p)
  | _, _ => None
  end.

Definition memchr (mem : bytes) (p : nat) (c : ascii) (n : nat) : option nat :=
  memchr_from (drop p mem) c n p.

(** ** strcase.h *)

(** Modelled from the spec: [Curl_raw_toupper] of lib/strcase.c, which is
    not among the sources; the upper-casing of ASCII letters on which the
    case-insensitive comparison of header names rests. *)
Definition Curl_raw_toupper (c : ascii) : ascii :=
  let n := nat_of_ascii c in
  if (97 <=? n) && (n <=? 122) then ascii_of_nat (n - 32) else c.

(** Modelled from the spec: [strncasecompare] of lib/strcase.c, which is
    not among the sources; it decides whether two byte strings are equal
    up to the case of ASCII letters on their first [max] bytes, the end of
    a list standing for the terminating NUL. *)
Fixpoint strncasecompare (first second : bytes) (max : nat) {struct max}
  : bool :=
  match max with
  | 0 => true
  | S max' =>
      match first, second with
      | a :: first', b :: second' =>
          Ascii.eqb (Curl_raw_toupper a) (Curl_raw_toupper b)
          && strncasecompare first' second' max'
      | [], [] => true
      | _, _ => false
      end
  end.

(** ** Header entries *)

Record quiche_h3_header := mk_header { name : bytes; value : bytes }.

Definition name_len (h : quiche_h3_header) : nat := length (name h).
Definition value_len (h : quiche_h3_header) : nat := length (value h).

Global Instance quiche_h3_header_eq_dec : EqDecision quiche_h3_header.
Proof. solve_decision. Defined.

(** Index where :authority header field will appear in request header
    field list. *)
Definition AUTHORITY_DST_IDX : nat := 3.

(** ** Header translation (http_request, lines 391-518) *)

(** The counting loop
    [for(i = 1; i < len; ++i) if(hdbuf[i] == '\n' && hdbuf[i - 1] == '\r') { ++nheader; ++i; }].
    [i] grows at every turn, so [len] turns are enough. *)
Fixpoint count_headers (mem : bytes) (fuel i nheader : nat) : nat :=
  match fuel with
  | 0 => nheader
  | S fuel' =>
      if i <? length mem then
        if Ascii.eqb (byte_at mem i) LF && Ascii.eqb (byte_at mem (i - 1)) CR
        then count_headers mem fuel' (i + 2) (nheader + 1)
        else count_headers mem fuel' (i + 1) nheader
      else nheader
  end.

(** The backward scan for the space that ends the path:
    [for(i = line_end - hdbuf; i; --i) if(hdbuf[i - 1] == ' ') { end = &hdbuf[i - 1]; break; }]. *)
Fixpoint rscan_space (mem : bytes) (hdbuf i : nat) : option nat :=
  match i with
  | 0 => None
  | S i' =>
      if Ascii.eqb (byte_at mem (hdbuf + i')) SP then Some (hdbuf + i')
      else rscan_space mem hdbuf i'
  end.

(** [for(end = hdbuf; end < line_end && *end != ':'; ++end);] with
    [n = line_end - end] bytes left. *)
Fixpoint scan_colon (s : bytes) (n p : nat) : nat :=
  match n, s with
  | S n', a :: s' => if Ascii.eqb a COLON then p else scan_colon s' n' (S p)
  | _, _ => p
  end.

(** the [while] loop that steps [hdbuf] over spaces and tabs. The scan starts at
    or before [line_end], whose byte is a CR, so it stops inside the
    buffer. *)
Fixpoint skip_blanks (s : bytes) (p : nat) : nat :=
  match s with
  | a :: s' => if is_blank a then skip_blanks s' (S p) else p
  | [] => p
  end.

Abbreviation slots := (list (option quiche_h3_header)).

Inductive step_result :=
| StepNext (line_end authority_idx : nat) (nva : slots)
| StepFail
| StepWild.

(** One turn of the [while(i < nheader)] loop over the header lines: the
    line after [line_end] goes to slot [i]. *)
Definition header_step (mem : bytes) (i line_end authority_idx : nat)
    (nva : slots) : step_result :=
  let len := length mem in
  let hdbuf := line_end + 2 in
  (* len - (hdbuf - (char * )mem) is unsigned: past the end it wraps
     and memchr would run over foreign memory *)
  if len <? hdbuf then StepWild else
  match memchr mem hdbuf CR (len - hdbuf) with
  | None => StepFail
  | Some line_end' =>
      if line_end' =? hdbuf then StepFail else
      (* header continuation lines are not supported *)
      if is_blank (byte_at mem hdbuf) then StepFail else
      let end_ := scan_colon (drop hdbuf mem) (line_end' - hdbuf) hdbuf in
      if (end_ =? hdbuf) || (end_ =? line_end') then StepFail else
      let hlen := end_ - hdbuf in
      let host :=
        (hlen =? 4) && strncasecompare (str "host") (drop hdbuf mem) 4 in
      let authority_idx' := if host then i else authority_idx in
      let nm := if host then str ":authority" else sub mem hdbuf hlen in
      let hdbuf' := skip_blanks (drop (end_ + 1) mem) (end_ + 1) in
      let nva' :=
        <[i := Some (mk_header nm (sub mem hdbuf' (line_end' - hdbuf')))]> nva in
      StepNext line_end' authority_idx' nva'
  end.

Inductive loop_result :=
| LoopDone (authority_idx : nat) (nva : slots)
| LoopFail
| LoopWild.

(** The loop itself; [todo] is [nheader - i]. *)
Fixpoint header_loop (mem : bytes) (todo i line_end authority_idx : nat)
    (nva : slots) : loop_result :=
  match todo with
  | 0 => LoopDone authority_idx nva
  | S todo' =>
      match header_step mem i line_end authority_idx nva with
      | StepNext line_end' authority_idx' nva' =>
          header_loop mem todo' (i + 1) line_end' authority_idx' nva'
      | StepFail => LoopFail
      | StepWild => LoopWild
      end
  end.

(** [for(i = authority_idx; i > AUTHORITY_DST_IDX; --i) nva[i] = nva[i - 1];]
    returning the array and the final [i]. *)
Fixpoint shift_back {A} (nva : list A) (i : nat) : list A * nat :=
  match i with
  | S i' =>
      if AUTHORITY_DST_IDX <? i then
        shift_back (match nva !! i' with Some x => <[i := x]> nva | None => nva end) i'
      else (nva, i)
  | 0 => (nva, 0)
  end.

(** :authority must come before non-pseudo header fields *)
Definition move_authority {A} (nva : list A) (authority_idx : nat) : list A :=
  if negb (authority_idx =? 0) && negb (authority_idx =? AUTHORITY_DST_IDX) then
    match nva !! authority_idx with
    | Some authority =>
        let '(nva', i) := shift_back nva authority_idx in
        <[i := authority]> nva'
    | None => nva
    end
  else nva.

(** Every slot of the array has been written. *)
Definition initialised (nva : slots) : option (list quiche_h3_header) :=
  mapM id nva.

(** How the translation ends: with the array, at the [fail] label (with
    the array allocated or not), on a failed [malloc], or in undefined
    behaviour ([translate_headers_in_bounds] shows that the last does not
    happen). *)
Inductive translated :=
| Translated (nva : list quiche_h3_header)
| GotoFail (allocated : bool)
| OutOfMemory
| Wild.

(** Lines 391-518 of [http_request]: from the header block to the array
    handed to the size check. [ssl] is [conn->handler->flags & PROTOPT_SSL],
    [malloc_ok] tells whether [malloc] returns a block. *)
Definition translate_headers (ssl malloc_ok : bool) (mem : bytes) : translated :=
  let len := length mem in
  let nheader := count_headers mem len 1 0 in
  if nheader <? 2 then GotoFail false else
  (* We counted additional 2 \r\n in the first and last line. We need 3
     new headers: :method, :path and :scheme. Therefore we need one
     more space. *)
  let nheader := nheader + 1 in
  if negb malloc_ok then OutOfMemory else
  let nva : slots := replicate nheader None in
  match memchr mem 0 CR len with
  | None => GotoFail true
  | Some line_end =>
      (* Method does not contain spaces *)
      match memchr mem 0 SP line_end with
      | None => GotoFail true
      | Some end_ =>
          if end_ =? 0 then GotoFail true else
          let nva := <[0 := Some (mk_header (str ":method") (sub mem 0 end_))]> nva in
          let hdbuf := end_ + 1 in
          (* Path may contain spaces so scan backwards *)
          match rscan_space mem hdbuf (line_end - hdbuf) with
          | None => GotoFail true
          | Some end2 =>
              if end2 =? hdbuf then GotoFail true else
              let nva :=
                <[1 := Some (mk_header (str ":path") (sub mem hdbuf (end2 - hdbuf)))]> nva in
              let nva :=
                <[2 := Some (mk_header (str ":scheme")
                               (if ssl then str "https" else str "http"))]> nva in
              match header_loop mem (nheader - 3) 3 line_end 0 nva with
              | LoopFail => GotoFail true
              | LoopWild => Wild
              | LoopDone authority_idx nva =>
                  match initialised (move_authority nva authority_idx) with
                  | Some l => Translated l
                  | None => Wild
                  end
              end
          end
      end
  end.

Definition example_block : bytes :=
  str "GET /index.html HTTP/1.1" ++ CRLF ++ str "Host: example.com" ++ CRLF
  ++ str "Accept: */*" ++ CRLF.


(** The number of CRLF pairs of a buffer, read left to right: what the
    counting loop computes. *)
Fixpoint crlf_pairs (s : bytes) : nat :=
  match s with
  | a :: s' =>
      match s' with
      | b :: s'' =>
          if Ascii.eqb b LF && Ascii.eqb a CR then S (crlf_pairs s'')
          else crlf_pairs s'
      | [] => 0
      end
  | [] => 0
  end.

(** ** Well-formed header blocks *)

(** [METHOD SPACE PATH SPACE VERSION] *)
Definition request_line (method path version : bytes) : bytes :=
  method ++ SP :: path ++ SP :: version.

(** A header line is a name, a colon and what follows the colon. *)
Definition header_line (h : bytes * bytes) : bytes := h.1 ++ COLON :: h.2.

Definition header_lines (hs : list (bytes * bytes)) : bytes :=
  concat (map (λ h, header_line h ++ CRLF) hs).

(** A request line, the header lines and the empty line that ends the
    block, each ended by CRLF. *)
Definition header_block (method path version : bytes)
    (hs : list (bytes * bytes)) : bytes :=
  request_line method path version ++ CRLF ++ header_lines hs ++ CRLF.

Record wf_request_line (method path version : bytes) : Prop := {
  method_nonempty : method ≠ [];
  method_no_space : SP ∉ method;
  method_no_cr : CR ∉ method;
  path_nonempty : path ≠ [];
  path_no_cr : CR ∉ path;
  version_no_space : SP ∉ version;
  version_no_cr : CR ∉ version
}.

Record wf_header (h : bytes * bytes) : Prop := {
  name_starts : ∃ c n, h.1 = c :: n ∧ is_blank c = false;
  name_no_colon : COLON ∉ h.1;
  name_no_cr : CR ∉ h.1;
  value_no_cr : CR ∉ h.2
}.

(** What follows the colon, without its leading spaces and tabs. *)
Definition ltrim (v : bytes) : bytes := drop (skip_blanks v 0) v.

(** The header name case-insensitively equals "host". *)
Definition is_host (n : bytes) : bool :=
  (length n =? 4) && strncasecompare (str "host") n 4.

(** The entry a header line is translated to. *)
Definition entry_of (h : bytes * bytes) : quiche_h3_header :=
  mk_header (if is_host h.1 then str ":authority" else h.1) (ltrim h.2).

Definition pseudo_headers (ssl : bool) (method path : bytes)
  : list quiche_h3_header :=
  [ mk_header (str ":method") method;
    mk_header (str ":path") path;
    mk_header (str ":scheme") (if ssl then str "https" else str "http") ].

(** The entries in source order: the three synthesized ones, then one per
    header line. *)
Definition in_source_order (ssl : bool) (method path : bytes)
    (hs : list (bytes * bytes)) : list quiche_h3_header :=
  pseudo_headers ssl method path ++ (entry_of <$> hs).

(** Position (in the array) of the last header line named host among [hs],
    whose first line sits at position [i]; [a] when there is none. *)
Fixpoint last_host (hs : list (bytes * bytes)) (i a : nat) : nat :=
  match hs with
  | [] => a
  | h :: hs' => last_host hs' (i + 1) (if is_host h.1 then i else a)
  end.

(** ** The adapter's world: connection state, scripted peer, trace *)

(** The result codes the file returns; [CURLcode] itself is declared in
    include/curl/curl.h. *)
Inductive CURLcode :=
| CURLE_OK
| CURLE_FAILED_INIT
| CURLE_OUT_OF_MEMORY
| CURLE_SEND_ERROR
| CURLE_RECV_ERROR
| CURLE_AGAIN.

Global Instance CURLcode_eq_dec : EqDecision CURLcode.
Proof. solve_decision. Defined.

(** Modelled from the spec: the request methods of [data->set.httpreq],
    whose type is declared in lib/urldata.h, not among the sources. The
    upload methods are POST, POST-form, POST-mime and PUT, the four cases
    that the [switch] of [http_request] names. *)
Inductive Curl_HttpReq :=
| HTTPREQ_NONE
| HTTPREQ_GET
| HTTPREQ_POST
| HTTPREQ_POST_FORM
| HTTPREQ_POST_MIME
| HTTPREQ_PUT
| HTTPREQ_HEAD
| HTTPREQ_OPTIONS.

(** The cases of the [switch] of [http_request] that carry a request body. *)
Definition is_upload (r : Curl_HttpReq) : bool :=
  match r with
  | HTTPREQ_POST | HTTPREQ_POST_FORM | HTTPREQ_POST_MIME | HTTPREQ_PUT => true
  | _ => false
  end.

(** Constants of quiche.h and errno.h (values of the quiche release the
    file was written against, and of Linux). *)
Definition QUICHE_ERR_DONE : Z := -1.
Definition EAGAIN : Z := 11.
Definition EWOULDBLOCK : Z := 11.

(** #define MAX_ACC 60000  /* <64KB to account for some overhead */ *)
Definition MAX_ACC : Z := 60000.

(** [size_t] additions wrap at 2^64. *)
Definition size_add (a b : Z) : Z := ((a + b) mod 2 ^ 64)%Z.

(** One answer of the socket to [recv], for a datagram together with the
    answer of [quiche_conn_recv] once it is fed that datagram. *)
Inductive inbound :=
| Datagram (d : bytes) (conn_recv : Z)
| RecvError (errno : Z).

(** One answer of the engine to [quiche_conn_send]: a packet, together
    with the answer of the socket's [send] for it, or a negative code. *)
Inductive outbound :=
| Packet (d : bytes) (sock_send : Z)
| NoPacket (code : positive).

(** The three event variants, each with the answer of the engine call its
    dispatch makes: [quiche_h3_event_for_each_header], [quiche_h3_recv_body],
    [quiche_conn_close]. *)
Inductive h3_event :=
| QUICHE_H3_EVENT_HEADERS (hs : list quiche_h3_header)
| QUICHE_H3_EVENT_DATA (body : Z)
| QUICHE_H3_EVENT_FINISHED (closed : Z).

(** What the adapter does to the outside, in order. Log lines other than
    the size warning are not recorded. *)
Inductive call :=
| c_recv
| c_quiche_conn_recv (d : bytes)
| c_quiche_conn_send
| c_send (d : bytes)
| c_quiche_conn_stream_recv (stream_id : Z)
| c_quiche_conn_stream_send (stream_id : Z) (data : bytes) (fin : bool)
| c_quiche_h3_config_new
| c_quiche_h3_conn_new_with_transport
| c_quiche_h3_conn_poll
| c_cb_each_header (h : quiche_h3_header)
| c_quiche_h3_recv_body (stream_id : Z)
| c_quiche_conn_close
| c_quiche_h3_event_free
| c_quiche_h3_send_request (nva : list quiche_h3_header) (fin : bool)
| c_malloc
| c_free
| c_infof_size_warning.

Global Instance call_eq_dec : EqDecision call.
Proof. solve_decision. Defined.

(** ** Engine configuration *)

Definition QUIC_MAX_STREAMS : Z := 256 * 1024.
Definition QUIC_MAX_DATA : Z := 1 * 1024 * 1024.
Definition QUIC_IDLE_TIMEOUT : Z := 60 * 1000.

(** A setting written into the engine configuration [qs->cfg]. *)
Inductive config_call :=
| c_set_idle_timeout (v : Z)
| c_set_initial_max_data (v : Z)
| c_set_initial_max_stream_data_bidi_local (v : Z)
| c_set_initial_max_stream_data_bidi_remote (v : Z)
| c_set_initial_max_stream_data_uni (v : Z)
| c_set_initial_max_streams_bidi (v : Z)
| c_set_initial_max_streams_uni (v : Z)
| c_set_application_protos.

(** The eight settings of [Curl_quic_connect], in the order of its calls. *)
Definition connect_settings : list config_call :=
  [ c_set_idle_timeout QUIC_IDLE_TIMEOUT;
    c_set_initial_max_data QUIC_MAX_DATA;
    c_set_initial_max_stream_data_bidi_local QUIC_MAX_DATA;
    c_set_initial_max_stream_data_bidi_remote QUIC_MAX_DATA;
    c_set_initial_max_stream_data_uni QUIC_MAX_DATA;
    c_set_initial_max_streams_bidi QUIC_MAX_STREAMS;
    c_set_initial_max_streams_uni QUIC_MAX_STREAMS;
    c_set_application_protos ].

Record world := mk_world {
  (* the connection and the transfer *)
  ssl : bool;                   (* conn->handler->flags & PROTOPT_SSL *)
  httpreq : Curl_HttpReq;       (* data->set.httpreq *)
  infilesize : Z;               (* data->state.infilesize *)
  h3c : bool;                   (* qs->h3c is not NULL *)
  upload_left : Z;              (* stream->upload_left *)
  stream3_id : Z;               (* stream->stream3_id *)
  (* the scripted peer: answers still to come, in call order *)
  sock_in : list inbound;
  engine_out : list outbound;
  stream_recv_rets : list Z;    (* quiche_conn_stream_recv *)
  stream_send_rets : list Z;    (* quiche_conn_stream_send *)
  h3_events : list (nat * h3_event);
  send_request_ret : Z;         (* quiche_h3_send_request *)
  malloc_ok : bool;
  (* observation *)
  trace : list call;
  heap_live : nat;              (* blocks malloc'ed and not yet freed *)
  (* connection setup *)
  h3_conn_new_ok : bool;        (* quiche_h3_conn_new_with_transport will
                                   not answer NULL *)
  cfg : option (list config_call); (* qs->cfg: NULL, or the configuration
                                   with the settings written to it *)
  scid : bytes;                 (* qs->scid *)
  conn : bool                   (* qs->conn is not NULL *)
}.

Definition set_h3c (b : bool) (w : world) : world :=
  mk_world (ssl w) (httpreq w) (infilesize w) b (upload_left w) (stream3_id w)
    (sock_in w) (engine_out w) (stream_recv_rets w) (stream_send_rets w)
    (h3_events w) (send_request_ret w) (malloc_ok w) (trace w) (heap_live w)
    (h3_conn_new_ok w) (cfg w) (scid w) (conn w).

Definition set_upload_left (n : Z) (w : world) : world :=
  mk_world (ssl w) (httpreq w) (infilesize w) (h3c w) n (stream3_id w)
    (sock_in w) (engine_out w) (stream_recv_rets w) (stream_send_rets w)
    (h3_events w) (send_request_ret w) (malloc_ok w) (trace w) (heap_live w)
    (h3_conn_new_ok w) (cfg w) (scid w) (conn w).

Definition set_stream3_id (n : Z) (w : world) : world :=
  mk_world (ssl w) (httpreq w) (infilesize w) (h3c w) (upload_left w) n
    (sock_in w) (engine_out w) (stream_recv_rets w) (stream_send_rets w)
    (h3_events w) (send_request_ret w) (malloc_ok w) (trace w) (heap_live w)
    (h3_conn_new_ok w) (cfg w) (scid w) (conn w).

Definition set_sock_in (q : list inbound) (w : world) : world :=
  mk_world (ssl w) (httpreq w) (infilesize w) (h3c w) (upload_left w) (stream3_id w)
    q (engine_out w) (stream_recv_rets w) (stream_send_rets w)
    (h3_events w) (send_request_ret w) (malloc_ok w) (trace w) (heap_live w)
    (h3_conn_new_ok w) (cfg w) (scid w) (conn w).

Definition set_engine_out (q : list outbound) (w : world) : world :=
  mk_world (ssl w) (httpreq w) (infilesize w) (h3c w) (upload_left w) (stream3_id w)
    (sock_in w) q (stream_recv_rets w) (stream_send_rets w)
    (h3_events w) (send_request_ret w) (malloc_ok w) (trace w) (heap_live w)
    (h3_conn_new_ok w) (cfg w) (scid w) (conn w).

Definition set_stream_recv_rets (q : list Z) (w : world) : world :=
  mk_world (ssl w) (httpreq w) (infilesize w) (h3c w) (upload_left w) (stream3_id w)
    (sock_in w) (engine_out w) q (stream_send_rets w)
    (h3_events w) (send_request_ret w) (malloc_ok w) (trace w) (heap_live w)
    (h3_conn_new_ok w) (cfg w) (scid w) (conn w).

Definition set_stream_send_rets (q : list Z) (w : world) : world :=
  mk_world (ssl w) (httpreq w) (infilesize w) (h3c w) (upload_left w) (stream3_id w)
    (sock_in w) (engine_out w) (stream_recv_rets w) q
    (h3_events w) (send_request_ret w) (malloc_ok w) (trace w) (heap_live w)
    (h3_conn_new_ok w) (cfg w) (scid w) (conn w).

Definition set_h3_events (q : list (nat * h3_event)) (w : world) : world :=
  mk_world (ssl w) (httpreq w) (infilesize w) (h3c w) (upload_left w) (stream3_id w)
    (sock_in w) (engine_out w) (stream_recv_rets w) (stream_send_rets w)
    q (send_request_ret w) (malloc_ok w) (trace w) (heap_live w)
    (h3_conn_new_ok w) (cfg w) (scid w) (conn w).

Definition log (cs : list call) (w : world) : world :=
  mk_world (ssl w) (httpreq w) (infilesize w) (h3c w) (upload_left w) (stream3_id w)
    (sock_in w) (engine_out w) (stream_recv_rets w) (stream_send_rets w)
    (h3_events w) (send_request_ret w) (malloc_ok w) (trace w ++ cs) (heap_live w)
    (h3_conn_new_ok w) (cfg w) (scid w) (conn w).

Definition set_heap_live (n : nat) (w : world) : world :=
  mk_world (ssl w) (httpreq w) (infilesize w) (h3c w) (upload_left w) (stream3_id w)
    (sock_in w) (engine_out w) (stream_recv_rets w) (stream_send_rets w)
    (h3_events w) (send_request_ret w) (malloc_ok w) (trace w) n
    (h3_conn_new_ok w) (cfg w) (scid w) (conn w).

Definition set_cfg (c : option (list config_call)) (w : world) : world :=
  mk_world (ssl w) (httpreq w) (infilesize w) (h3c w) (upload_left w) (stream3_id w)
    (sock_in w) (engine_out w) (stream_recv_rets w) (stream_send_rets w)
    (h3_events w) (send_request_ret w) (malloc_ok w) (trace w) (heap_live w)
    (h3_conn_new_ok w) c (scid w) (conn w).

Definition set_scid (id : bytes) (w : world) : world :=
  mk_world (ssl w) (httpreq w) (infilesize w) (h3c w) (upload_left w) (stream3_id w)
    (sock_in w) (engine_out w) (stream_recv_rets w) (stream_send_rets w)
    (h3_events w) (send_request_ret w) (malloc_ok w) (trace w) (heap_live w)
    (h3_conn_new_ok w) (cfg w) id (conn w).

Definition set_conn (b : bool) (w : world) : world :=
  mk_world (ssl w) (httpreq w) (infilesize w) (h3c w) (upload_left w) (stream3_id w)
    (sock_in w) (engine_out w) (stream_recv_rets w) (stream_send_rets w)
    (h3_events w) (send_request_ret w) (malloc_ok w) (trace w) (heap_live w)
    (h3_conn_new_ok w) (cfg w) (scid w) b.

(** What C leaves undefined and the adapter can run into. *)
Inductive fault :=
| ReadsUninitialised (variable : string)
| WildRead.

Inductive outcome (A : Type) :=
| Returns (a : A) (w : world)
| Faults (f : fault) (w : world).
Arguments Returns {A} a w.
Arguments Faults {A} f w.

(** The world after the call, in either case. *)
Definition after {A} (o : outcome A) : world :=
  match o with Returns _ w => w | Faults _ w => w end.

Definition returned {A} (o : outcome A) : option A :=
  match o with Returns a _ => Some a | Faults _ _ => None end.

(** State and fault monad of the adapter's functions. *)
Definition M (A : Type) : Type := world → outcome A.

Global Instance M_ret : MRet M := λ A a w, Returns a w.

Global Instance M_bind : MBind M := λ A B k m w,
  match m w with
  | Returns a w' => k a w'
  | Faults f w' => Faults f w'
  end.

Definition fault_with {A} (f : fault) : M A := λ w, Faults f w.
Definition get : M world := λ w, Returns w w.
Definition modify (f : world → world) : M unit := λ w, Returns tt (f w).
Definition call_out (c : call) : M unit := modify (log [c]).

(** ** Datagram pump *)

(** The [do ... while(1)] loop of [process_ingress] over the answers of the
    socket: result, answers left, calls made. *)
Fixpoint ingress_loop (q : list inbound) : CURLcode * list inbound * list call :=
  match q with
  | [] =>
      (* nothing queued: recv() is -1 with EAGAIN *)
      (CURLE_OK, [], [c_recv])
  | RecvError errno :: q' =>
      if (errno =? EAGAIN)%Z || (errno =? EWOULDBLOCK)%Z
      then (CURLE_OK, q', [c_recv])
      else (CURLE_RECV_ERROR, q', [c_recv])
  | Datagram d recvd :: q' =>
      if (recvd =? QUICHE_ERR_DONE)%Z
      then (CURLE_OK, q', [c_recv; c_quiche_conn_recv d])
      else if (recvd <? 0)%Z
      then (CURLE_RECV_ERROR, q', [c_recv; c_quiche_conn_recv d])
      else
        let '(r, q'', cs) := ingress_loop q' in
        (r, q'', c_recv :: c_quiche_conn_recv d :: cs)
  end.

Definition process_ingress : M CURLcode := λ w,
  let '(r, q, cs) := ingress_loop (sock_in w) in
  Returns r (log cs (set_sock_in q w)).

(** The [do ... while(1)] loop of [flush_egress] over the answers of the
    engine. *)
Fixpoint egress_loop (q : list outbound) : CURLcode * list outbound * list call :=
  match q with
  | [] =>
      (* nothing to send: quiche_conn_send() is QUICHE_ERR_DONE *)
      (CURLE_OK, [], [c_quiche_conn_send])
  | NoPacket code :: q' =>
      if (Z.neg code =? QUICHE_ERR_DONE)%Z
      then (CURLE_OK, q', [c_quiche_conn_send])
      else (CURLE_SEND_ERROR, q', [c_quiche_conn_send])
  | Packet d sent :: q' =>
      if (sent <? 0)%Z
      then (CURLE_SEND_ERROR, q', [c_quiche_conn_send; c_send d])
      else
        let '(r, q'', cs) := egress_loop q' in
        (r, q'', c_quiche_conn_send :: c_send d :: cs)
  end.

Definition flush_egress : M CURLcode := λ w,
  let '(r, q, cs) := egress_loop (engine_out w) in
  Returns r (log cs (set_engine_out q w)).

(** ** Event dispatcher *)

(** The [while(1)] poll loop of [h3_stream_recv] over the pending events;
    [recvd] is the local of that name. An empty list is the engine
    answering that nothing more is pending. *)
Fixpoint poll_loop (evs : list (nat * h3_event)) (recvd : Z) : Z * list call :=
  match evs with
  | [] => (recvd, [c_quiche_h3_conn_poll])
  | (s, ev) :: evs' =>
      let '(recvd', cs) :=
        match ev with
        | QUICHE_H3_EVENT_HEADERS hs => (recvd, c_cb_each_header <$> hs)
        | QUICHE_H3_EVENT_DATA body => (body, [c_quiche_h3_recv_body (Z.of_nat s)])
        | QUICHE_H3_EVENT_FINISHED closed => (recvd, [c_quiche_conn_close])
        end in
      let '(r, cs') := poll_loop evs' recvd' in
      (r, c_quiche_h3_conn_poll :: cs ++ c_quiche_h3_event_free :: cs')
  end.

(** [quiche_conn_stream_recv(qs->conn, 0, buf, buffersize, &fin)]. *)
Definition quiche_conn_stream_recv (stream_id : Z) : M Z := λ w,
  let w := log [c_quiche_conn_stream_recv stream_id] w in
  match stream_recv_rets w with
  | [] => Returns QUICHE_ERR_DONE w
  | r :: q => Returns r (set_stream_recv_rets q w)
  end.

(** [quiche_conn_stream_send(qs->conn, stream_id, mem, len, fin)]; with no
    scripted answer the engine takes all [len] bytes. *)
Definition quiche_conn_stream_send (stream_id : Z) (mem : bytes) (fin : bool)
  : M Z := λ w,
  let w := log [c_quiche_conn_stream_send stream_id mem fin] w in
  match stream_send_rets w with
  | [] => Returns (Z.of_nat (length mem)) w
  | r :: q => Returns r (set_stream_send_rets q w)
  end.

(** The events the polls of one [h3_stream_recv] will be answered with, in
    order: [qs->h3c] is handed to [quiche_h3_conn_poll] as it is, so what
    the engine reports does not depend on it here. *)
Definition pending (w : world) : list (nat * h3_event) := h3_events w.

(** [h3_stream_recv]: the returned [ssize_t] and [*curlcode]. *)
Definition h3_stream_recv : M (Z * CURLcode) :=
  r ← process_ingress;
  if bool_decide (r ≠ CURLE_OK) then mret ((-1)%Z, CURLE_RECV_ERROR) else
  recvd ← quiche_conn_stream_recv 0;
  if (recvd =? QUICHE_ERR_DONE)%Z then mret ((-1)%Z, CURLE_AGAIN) else
  w ← get;
  let '(recvd, cs) := poll_loop (pending w) recvd in
  modify (λ w, log cs (set_h3_events [] w));;
  mret (recvd, CURLE_OK).

(** The answer the next [quiche_conn_stream_recv] will get. *)
Definition direct_read (w : world) : Z :=
  match stream_recv_rets w with [] => QUICHE_ERR_DONE | r :: _ => r end.

(** ** Request driver *)

(** [malloc] and [free] of the header array, counted in [heap_live]. *)
Definition malloc : M bool := λ w,
  if malloc_ok w
  then Returns true (log [c_malloc] (set_heap_live (S (heap_live w)) w))
  else Returns false (log [c_malloc] w).

Definition free : M unit :=
  modify (λ w, log [c_free] (set_heap_live (pred (heap_live w)) w)).

Definition quiche_h3_send_request (nva : list quiche_h3_header) (fin : bool)
  : M Z := λ w,
  Returns (send_request_ret w) (log [c_quiche_h3_send_request nva fin] w).

(** The size check: [acc += nva[i].name_len + nva[i].value_len] over the
    array, in [size_t]. *)
Definition cumulative_length (nva : list quiche_h3_header) : Z :=
  foldl (λ acc h, size_add acc (size_add (Z.of_nat (name_len h))
                                         (Z.of_nat (value_len h))))
        0%Z nva.

Definition size_warning (nva : list quiche_h3_header) : M unit :=
  if (MAX_ACC <? cumulative_length nva)%Z
  then call_out c_infof_size_warning
  else mret tt.

(** The [switch(conn->data->set.httpreq)]: the value of the local
    [stream3_id] after it, [None] while it has not been assigned. *)
Definition submit (nva : list quiche_h3_header) : M (option Z) :=
  w ← get;
  if is_upload (httpreq w) then
    (if bool_decide (infilesize w ≠ (-1)%Z)
     then modify (set_upload_left (infilesize w))
     else
       (* data sending without specifying the data amount up front *)
       modify (set_upload_left (-1)%Z));;
    (* fix the body submission *)
    mret None
  else
    id ← quiche_h3_send_request nva true;
    mret (Some id).

(** [quiche_h3_conn_new_with_transport(qs->conn, qs->config)]: whether the
    pointer it answers is not NULL. *)
Definition quiche_h3_conn_new_with_transport : M bool := λ w,
  Returns (h3_conn_new_ok w) (log [c_quiche_h3_conn_new_with_transport] w).

(** [http_request]. The answer of [quiche_h3_config_new] is only handed on
    to the engine; that of [quiche_h3_conn_new_with_transport] is stored in
    [qs->h3c], NULL or not (the source leaves both failures as a TODO). *)
Definition http_request (mem : bytes) : M CURLcode :=
  call_out c_quiche_h3_config_new;;
  created ← quiche_h3_conn_new_with_transport;
  modify (set_h3c created);;
  w ← get;
  match translate_headers (ssl w) (malloc_ok w) mem with
  | GotoFail false =>
      (* fail: free(nva) with nva still NULL *)
      mret CURLE_SEND_ERROR
  | OutOfMemory => malloc;; mret CURLE_OUT_OF_MEMORY
  | GotoFail true => malloc;; free;; mret CURLE_SEND_ERROR
  | Wild => malloc;; fault_with WildRead
  | Translated nva =>
      malloc;;
      size_warning nva;;
      stream3_id ← submit nva;
      free;;
      match stream3_id with
      | None => fault_with (ReadsUninitialised "stream3_id")
      | Some id =>
          if (id <? 0)%Z then mret CURLE_SEND_ERROR
          else modify (set_stream3_id id);; mret CURLE_OK
      end
  end.

(** [h3_stream_send]: the returned [ssize_t] and what is stored in
    [*curlcode], [None] when the function returns without writing it. *)
Definition h3_stream_send (mem : bytes) : M (Z * option CURLcode) :=
  w ← get;
  if negb (h3c w) then
    result ← http_request mem;
    if bool_decide (result ≠ CURLE_OK) then mret ((-1)%Z, Some CURLE_SEND_ERROR)
    else mret (Z.of_nat (length mem), None)
  else
    sent ← quiche_conn_stream_send 0 mem true;
    if (sent <? 0)%Z then mret ((-1)%Z, Some CURLE_SEND_ERROR) else
    r ← flush_egress;
    if bool_decide (r ≠ CURLE_OK) then mret ((-1)%Z, Some CURLE_SEND_ERROR)
    else mret (sent, Some CURLE_OK).

(** The calls an invocation made. *)
Definition calls_of {A} (m : M A) (w : world) : list call :=
  drop (length (trace w)) (trace (after (m w))).

(** ** Vocabulary of the statements and example inputs *)

(** The claim about a host header at array position [k]: the translated
    list is the three synthesized entries, then that header as :authority,
    then the entries of the lines before it, then those of the lines after
    it. *)
Definition host_moved_to_index_3 (ssl : bool) (m p v : bytes)
    (hs : list (bytes * bytes)) (k : nat) : Prop :=
  ∃ h, hs !! (k - 3) = Some h ∧
    translate_headers ssl true (header_block m p v hs)
    = Translated (pseudo_headers ssl m p
                  ++ mk_header (str ":authority") (ltrim h.2)
                  :: (entry_of <$> take (k - 3) hs)
                  ++ (entry_of <$> drop (k - 2) hs)).

Definition two_hosts : list (bytes * bytes) :=
  [ (str "A", str " 1"); (str "Host", str " a"); (str "Host", str " b") ].

(** What the code makes of the block with these three header lines. *)
Definition two_hosts_translated : list quiche_h3_header :=
  [ mk_header (str ":method") (str "GET");
    mk_header (str ":path") (str "/");
    mk_header (str ":scheme") (str "https");
    mk_header (str ":authority") (str "b");
    mk_header (str "A") (str "1");
    mk_header (str ":authority") (str "a") ].

Definition five_entries : list quiche_h3_header :=
  [ mk_header (str ":method") (str "GET");
    mk_header (str ":path") (str "/index.html");
    mk_header (str ":scheme") (str "https");
    mk_header (str ":authority") (str "example.com");
    mk_header (str "Accept") (str "*/*") ].

(** Method and path can be isolated on a request line: it has a first
    space after a non-empty method and, after that, a last space with a
    non-empty path in between. *)
Definition isolates (rl : bytes) : Prop :=
  ∃ m p v, rl = request_line m p v ∧ (m ≠ []) ∧ (SP ∉ m) ∧ (p ≠ []) ∧ (SP ∉ v).

(** The block has a request line, well-formed header lines, then a line
    that begins with a space or a tab, and goes on to its empty line. *)
Definition has_continuation_line (mem : bytes) : Prop :=
  ∃ rl before c l later,
    mem = rl ++ CRLF ++ header_lines before ++ (c :: l) ++ CRLF ++ later ++ CRLF
    ∧ (CR ∉ rl) ∧ Forall wf_header before ∧ is_blank c = true ∧ (CR ∉ l).

(** The first line of the block does not isolate method and path. *)
Definition request_line_lacks_space (mem : bytes) : Prop :=
  ∃ rl rest, mem = rl ++ CR :: rest ∧ (CR ∉ rl) ∧ ¬ isolates rl.

Definition folded_block : bytes :=
  str "GET / HTTP/1.1" ++ CRLF ++ header_lines [(str "Accept", str " a,")]
  ++ str " b" ++ CRLF ++ str "X: 1" ++ CRLF ++ CRLF.

Definition a_get_world : world :=
  mk_world true HTTPREQ_GET (-1) false 0 0 [] [] [] [] [] 0 true [] 0
    true (Some connect_settings) [] true.

Definition is_send_request (c : call) : bool :=
  match c with c_quiche_h3_send_request _ _ => true | _ => false end.

Definition a_put_world : world :=
  mk_world true HTTPREQ_PUT 1234 false 0 0 [] [] [] [] [] 7 true [] 0
    true (Some connect_settings) [] true.

(** The cumulative byte length of all names plus values. *)
Definition exact_length (nva : list quiche_h3_header) : Z :=
  foldr (λ h n, (Z.of_nat (name_len h) + Z.of_nat (value_len h) + n)%Z) 0%Z nva.

(** A request whose three entries add up to exactly 60000 bytes: 19 bytes
    of names, GET, https and a path of 59973 bytes. *)
Definition long_path : bytes := "/"%char :: replicate 59972 "a"%char.

Definition block_60000 : bytes :=
  header_block (str "GET") long_path (str "HTTP/1.1") [].

(** The same request with one more byte of path. *)
Definition block_60001 : bytes :=
  header_block (str "GET") (long_path ++ [ "b"%char ]) (str "HTTP/1.1") [].

(** Datagrams with the engine's answer to each. *)
Definition datagrams (ds : list (bytes * Z)) : list inbound :=
  (λ d, Datagram d.1 d.2) <$> ds.

(** The engine takes every datagram: its answers are not negative. *)
Definition accepted (ds : list (bytes * Z)) : Prop :=
  Forall (λ d, (0 ≤ d.2)%Z) ds.

(** The calls that read and feed the datagrams, one after the other. *)
Definition fed (ds : list (bytes * Z)) : list call :=
  concat ((λ d, [c_recv; c_quiche_conn_recv d.1]) <$> ds).

Definition two_datagrams : list (bytes * Z) :=
  [ (str "first", 5%Z); (str "second", 0%Z) ].

Definition a_draining_world : world :=
  mk_world true HTTPREQ_GET (-1) true 0 0
    (datagrams two_datagrams ++ [RecvError EAGAIN; Datagram (str "later") 5])
    [] [] [] [] 0 true [] 0
    true (Some connect_settings) [] true.

(** The body count of the most recent Data event of a list of events. *)
Fixpoint most_recent_data (evs : list (nat * h3_event)) : option Z :=
  match evs with
  | [] => None
  | (_, ev) :: evs' =>
      match most_recent_data evs' with
      | Some b => Some b
      | None =>
          match ev with
          | QUICHE_H3_EVENT_DATA b => Some b
          | _ => None
          end
      end
  end.

(** The calls of the ingress and of the egress pump from a world on. *)
Definition ingress_calls (w : world) : list call := (ingress_loop (sock_in w)).2.
Definition egress_calls (w : world) : list call := (egress_loop (engine_out w)).2.

(** The answer the next [quiche_conn_stream_send] of [mem] will get. *)
Definition stream_send_answer (w : world) (mem : bytes) : Z :=
  match stream_send_rets w with [] => Z.of_nat (length mem) | r :: _ => r end.

Definition a_receiving_world : world :=
  mk_world true HTTPREQ_GET (-1) true 0 0
    [Datagram (str "abc") 3] [] [10%Z] []
    [ (0, QUICHE_H3_EVENT_HEADERS [mk_header (str ":status") (str "200")]);
      (0, QUICHE_H3_EVENT_DATA 5);
      (0, QUICHE_H3_EVENT_DATA 0);
      (0, QUICHE_H3_EVENT_FINISHED 0) ]
    0 true [] 0
    true (Some connect_settings) [] true.

(** An engine that has no HTTP/3 context has no event to report. *)
Definition engine_needs_context (w : world) : Prop :=
  h3c w = false → h3_events w = [].

(** Established, with bytes to read on the stream, before the first send
    has created the HTTP/3 context. *)
Definition a_world_before_the_request : world :=
  mk_world true HTTPREQ_GET (-1) false 0 0
    [Datagram (str "abc") 3] [] [10%Z] [] []
    0 true [] 0
    true (Some connect_settings) [] true.

Definition an_established_world : world :=
  mk_world true HTTPREQ_GET (-1) true 0 0
    [Datagram (str "abc") 3] [Packet (str "xyz") 3] [10%Z] []
    [ (0, QUICHE_H3_EVENT_DATA 5); (0, QUICHE_H3_EVENT_FINISHED 0) ]
    0 true [] 0
    true (Some connect_settings) [] true.

(** ** Connection setup (Curl_quic_connect, Curl_quic_is_connected) *)

(** The answers of the three calls of [Curl_quic_connect] that can fail
    before anything is sent: [quiche_config_new], [Curl_rand] (its result
    and what it has left in the buffer) and [quiche_connect]. *)
Record connect_answers := mk_connect_answers {
  config_new_ok : bool;
  rand_result : CURLcode;
  rand_bytes : bytes;
  connect_ok : bool
}.

(** [quiche_config_set_...(qs->cfg, ...)]: one more setting in the
    configuration. *)
Definition quiche_config_set (c : config_call) : M unit :=
  modify (λ w, set_cfg ((λ l, l ++ [c]) <$> cfg w) w).

(** [Curl_quic_connect]. *)
Definition Curl_quic_connect (e : connect_answers) : M CURLcode :=
  modify (set_cfg (if config_new_ok e then Some [] else None));;
  if negb (config_new_ok e) then mret CURLE_FAILED_INIT else
  quiche_config_set (c_set_idle_timeout QUIC_IDLE_TIMEOUT);;
  quiche_config_set (c_set_initial_max_data QUIC_MAX_DATA);;
  quiche_config_set (c_set_initial_max_stream_data_bidi_local QUIC_MAX_DATA);;
  quiche_config_set (c_set_initial_max_stream_data_bidi_remote QUIC_MAX_DATA);;
  quiche_config_set (c_set_initial_max_stream_data_uni QUIC_MAX_DATA);;
  quiche_config_set (c_set_initial_max_streams_bidi QUIC_MAX_STREAMS);;
  quiche_config_set (c_set_initial_max_streams_uni QUIC_MAX_STREAMS);;
  quiche_config_set c_set_application_protos;;
  (* result = Curl_rand(conn->data, qs->scid, sizeof(qs->scid)) *)
  modify (set_scid (rand_bytes e));;
  if bool_decide (rand_result e ≠ CURLE_OK) then mret (rand_result e) else
  (* qs->conn = quiche_connect(conn->host.name, qs->scid, ..., qs->cfg) *)
  modify (set_conn (connect_ok e));;
  if negb (connect_ok e) then mret CURLE_FAILED_INIT else
  result ← flush_egress;
  if bool_decide (result ≠ CURLE_OK) then mret CURLE_FAILED_INIT
  else mret CURLE_OK.

(** [Curl_quic_is_connected]: its result and whether it has switched the
    connection to [h3_stream_recv] and [h3_stream_send] and set [*done];
    [established] is the answer of [quiche_conn_is_established]. *)
Definition Curl_quic_is_connected (established : bool) : M (CURLcode * bool) :=
  result ← process_ingress;
  if bool_decide (result ≠ CURLE_OK) then mret (result, false) else
  result ← flush_egress;
  if bool_decide (result ≠ CURLE_OK) then mret (result, false) else
  mret (CURLE_OK, established).

(** ** quiche_getsock *)

(** [quiche_getsock]: the bitmap it returns for [k->keepon]. The flag
    values are macros of lib/urldata.h and lib/multiif.h; they are taken as
    parameters. *)
Definition quiche_getsock
    (GETSOCK_BLANK GETSOCK_READSOCK GETSOCK_WRITESOCK KEEP_SEND KEEP_SEND_PAUSE : Z)
    (keepon : Z) : Z :=
  let bitmap := GETSOCK_BLANK in
  let bitmap := Z.lor bitmap GETSOCK_READSOCK in
  (* we're still uploading or the HTTP/2 layer wants to send data *)
  if (Z.land keepon (Z.lor KEEP_SEND KEEP_SEND_PAUSE) =? KEEP_SEND)%Z
  then Z.lor bitmap GETSOCK_WRITESOCK
  else bitmap.

(** ** More vocabulary *)

(** The datagrams among the answers of the socket, and the packets among
    the answers of the engine. *)
Definition datagrams_of (q : list inbound) : list bytes :=
  omap (λ x, match x with Datagram d _ => Some d | RecvError _ => None end) q.

Definition packets_of (q : list outbound) : list bytes :=
  omap (λ x, match x with Packet d _ => Some d | NoPacket _ => None end) q.

(** The datagrams an invocation fed to the engine, and the packets it
    wrote to the socket, in order. *)
Definition fed_datagrams (cs : list call) : list bytes :=
  omap (λ c, match c with c_quiche_conn_recv d => Some d | _ => None end) cs.

Definition sent_packets (cs : list call) : list bytes :=
  omap (λ c, match c with c_send d => Some d | _ => None end) cs.

(** The headers an invocation handed to [cb_each_header], in order. *)
Definition surfaced_headers (cs : list call) : list quiche_h3_header :=
  omap (λ c, match c with c_cb_each_header h => Some h | _ => None end) cs.

(** The headers of the Headers events of a list of events, in order. *)
Definition headers_of (evs : list (nat * h3_event)) : list quiche_h3_header :=
  concat ((λ e, match e.2 with QUICHE_H3_EVENT_HEADERS hs => hs | _ => [] end)
          <$> evs).

Definition is_finished (e : nat * h3_event) : bool :=
  match e.2 with QUICHE_H3_EVENT_FINISHED _ => true | _ => false end.

(** How often a call occurs among the calls of an invocation. *)
Definition count_call (c : call) (cs : list call) : nat :=
  length (filter (λ x, x = c) cs).

(** Packets with the socket's answer to each. *)
Definition packets (ps : list (bytes * Z)) : list outbound :=
  (λ d, Packet d.1 d.2) <$> ps.

(** The socket takes every packet: its answers are not negative. *)
Definition written (ps : list (bytes * Z)) : Prop :=
  Forall (λ d, (0 ≤ d.2)%Z) ps.

(** The calls that produce and write the packets, one after the other. *)
Definition flushed (ps : list (bytes * Z)) : list call :=
  concat ((λ d, [c_quiche_conn_send; c_send d.1]) <$> ps).

(** The value does not begin with a space or a tab. *)
Definition trimmed (v : bytes) : Prop :=
  match v with c :: _ => is_blank c = false | [] => True end.

Definition a_world_without_memory : world :=
  mk_world true HTTPREQ_GET (-1) false 0 0 [] [] [] [] [] 0 false [] 0
    true (Some connect_settings) [] true.

(** The results of the two pumps from a world on. *)
Definition ingress_result (w : world) : CURLcode := (ingress_loop (sock_in w)).1.1.
Definition egress_result (w : world) : CURLcode := (egress_loop (engine_out w)).1.1.

Definition two_packets : list (bytes * Z) :=
  [ (str "initial", 7%Z); (str "handshake", 9%Z) ].

Definition a_flushing_world : world :=
  mk_world true HTTPREQ_GET (-1) false 0 0 [] (packets two_packets)
    [] [] [] 0 true [] 0
    true None [] false.

Definition a_blocked_world : world :=
  mk_world true HTTPREQ_GET (-1) true 0 0 [Datagram (str "abc") 3] [] [] []
    [(0, QUICHE_H3_EVENT_DATA 5)] 0 true [] 0
    true (Some connect_settings) [] true.

Definition a_short_write_world : world :=
  mk_world true HTTPREQ_GET (-1) true 0 0 [] [Packet (str "xyz") 3] []
    [2%Z] [] 0 true [] 0
    true (Some connect_settings) [] true.

(** The block has a request line, well-formed header lines, then a line
    that has no colon (the empty line included) or begins with one, and
    goes on to its empty line. *)
Definition has_nameless_line (mem : bytes) : Prop :=
  ∃ rl before l later,
    mem = rl ++ CRLF ++ header_lines before ++ l ++ CRLF ++ later ++ CRLF
    ∧ (CR ∉ rl) ∧ Forall wf_header before ∧ (CR ∉ l)
    ∧ ((COLON ∉ l) ∨ head l = Some COLON).

Definition nameless_block : bytes :=
  str "GET / HTTP/1.1" ++ CRLF ++ header_lines [(str "Accept", str " a")]
  ++ str "no colon here" ++ CRLF ++ [] ++ CRLF.

Definition one_header_block : bytes :=
  header_block (str "GET") (str "/") (str "HTTP/1.1")
    [(str "Accept", str "  */*")].

(** ** Scanning lemmas *)

(** Equalities between two bracketings of the same concatenation. *)
Ltac app_eq :=
  repeat (rewrite <- app_assoc || rewrite <- app_comm_cons || simpl);
  reflexivity.

(** Lengths of concatenations. *)
Ltac len_lia :=
  repeat first [rewrite length_app | progress simpl]; lia.

Lemma byte_at_app_r (a b : bytes) (p : nat) :
  byte_at (a ++ b) (length a + p) = byte_at b p.
Proof.
  unfold byte_at. rewrite lookup_app_r by lia.
  by replace (length a + p - length a) with p by lia.
Qed.

Lemma byte_at_middle (a b : bytes) (c : ascii) :
  byte_at (a ++ c :: b) (length a) = c.
Proof.
  replace (length a) with (length a + 0) by lia.
  by rewrite byte_at_app_r.
Qed.

Lemma memchr_from_found (l rest : bytes) (c : ascii) (n p : nat) :
  c ∉ l → length l < n →
  memchr_from (l ++ c :: rest) c n p = Some (p + length l).
Proof.
  revert n p. induction l as [|a l IH]; intros n p Hc Hn; simpl in *.
  - destruct n; [lia|]. rewrite Ascii.eqb_refl. f_equal. lia.
  - destruct n; [lia|].
    apply not_elem_of_cons in Hc as [Hne Hc].
    destruct (Ascii.eqb_spec a c) as [->|_]; [done|].
    rewrite IH by (try done; lia). f_equal. lia.
Qed.

Lemma memchr_from_none (l rest : bytes) (c : ascii) (n p : nat) :
  c ∉ l → n ≤ length l → memchr_from (l ++ rest) c n p = None.
Proof.
  revert n p. induction l as [|a l IH]; intros n p Hc Hn; simpl in *.
  - assert (n = 0) as -> by lia. by destruct rest.
  - destruct n; [done|].
    apply not_elem_of_cons in Hc as [Hne Hc].
    destruct (Ascii.eqb_spec a c) as [->|_]; [done|].
    apply IH; [done|lia].
Qed.

Lemma memchr_from_absent (s : bytes) (c : ascii) (n p : nat) :
  c ∉ s → memchr_from s c n p = None.
Proof.
  revert n p. induction s as [|a s IH]; intros n p Hc; destruct n; simpl; try done.
  apply not_elem_of_cons in Hc as [Hne Hc].
  destruct (Ascii.eqb_spec a c) as [->|_]; [done|]. by apply IH.
Qed.

Lemma scan_colon_found (l rest : bytes) (n p : nat) :
  COLON ∉ l → length l < n →
  scan_colon (l ++ COLON :: rest) n p = p + length l.
Proof.
  revert n p. induction l as [|a l IH]; intros n p Hc Hn; simpl in *.
  - destruct n; [lia|]. simpl. lia.
  - destruct n; [lia|].
    apply not_elem_of_cons in Hc as [Hne Hc].
    destruct (Ascii.eqb_spec a COLON) as [->|_]; [done|].
    rewrite IH by (try done; lia). lia.
Qed.

Lemma scan_colon_absent (l rest : bytes) (p : nat) :
  COLON ∉ l → scan_colon (l ++ rest) (length l) p = p + length l.
Proof.
  revert p. induction l as [|a l IH]; intros p Hc; simpl in *.
  - destruct rest; simpl; lia.
  - apply not_elem_of_cons in Hc as [Hne Hc].
    destruct (Ascii.eqb_spec a COLON) as [->|_]; [done|].
    rewrite IH by done. lia.
Qed.

Lemma skip_blanks_shift (s : bytes) (p : nat) :
  skip_blanks s p = p + skip_blanks s 0.
Proof.
  revert p. induction s as [|a s IH]; intros p; simpl; [lia|].
  destruct (is_blank a); [|lia].
  rewrite (IH (S p)), (IH 1). lia.
Qed.

Lemma skip_blanks_le (s : bytes) : skip_blanks s 0 ≤ length s.
Proof.
  induction s as [|a s IH]; simpl; [lia|].
  destruct (is_blank a); [|lia]. rewrite skip_blanks_shift. lia.
Qed.

Lemma skip_blanks_stop (l rest : bytes) (c : ascii) :
  is_blank c = false →
  skip_blanks (l ++ c :: rest) 0 = skip_blanks l 0.
Proof.
  intros Hc. induction l as [|a l IH]; simpl.
  - by rewrite Hc.
  - destruct (is_blank a); [|done].
    by rewrite (skip_blanks_shift _ 1), (skip_blanks_shift l 1), IH.
Qed.

Lemma rscan_space_found (pre path v rest : bytes) :
  SP ∉ v →
  rscan_space (pre ++ path ++ SP :: v ++ rest) (length pre)
    (length path + 1 + length v)
  = Some (length pre + length path).
Proof.
  intros Hv. revert rest. induction v as [|x v IH] using rev_ind; intros rest.
  - replace (length path + 1 + length (@nil ascii)) with (S (length path))
      by (simpl; lia).
    simpl. rewrite byte_at_app_r, byte_at_middle. by rewrite Ascii.eqb_refl.
  - apply not_elem_of_app in Hv as [Hv Hx].
    apply not_elem_of_cons in Hx as [Hx _].
    rewrite length_app. simpl.
    replace (length path + 1 + (length v + 1)) with (S (length path + 1 + length v)) by lia.
    simpl.
    replace (pre ++ path ++ SP :: (v ++ [x]) ++ rest)
      with (pre ++ (path ++ SP :: v) ++ x :: rest)
      by app_eq.
    rewrite byte_at_app_r.
    replace (length path + 1 + length v) with (length (path ++ SP :: v))
      by (rewrite length_app; simpl; lia).
    rewrite byte_at_middle.
    destruct (Ascii.eqb_spec x SP) as [->|_]; [done|].
    rewrite <- (IH Hv (x :: rest)).
    rewrite length_app. simpl.
    replace (length path + S (length v)) with (length path + 1 + length v) by lia.
    f_equal. app_eq.
Qed.

Lemma rscan_space_absent (pre l rest : bytes) :
  SP ∉ l → rscan_space (pre ++ l ++ rest) (length pre) (length l) = None.
Proof.
  intros Hl. revert rest. induction l as [|x l IH] using rev_ind; intros rest; [done|].
  apply not_elem_of_app in Hl as [Hl Hx].
  apply not_elem_of_cons in Hx as [Hx _].
  rewrite length_app. simpl.
  replace (length l + 1) with (S (length l)) by lia. simpl.
  replace (pre ++ (l ++ [x]) ++ rest) with (pre ++ l ++ x :: rest)
    by app_eq.
  rewrite byte_at_app_r, byte_at_middle.
  destruct (Ascii.eqb_spec x SP) as [->|_]; [done|].
  by apply IH.
Qed.

Lemma drop_byte_at (mem : bytes) (i : nat) :
  i < length mem → drop i mem = byte_at mem i :: drop (S i) mem.
Proof.
  intros Hi. destruct (lookup_lt_is_Some_2 mem i Hi) as [x Hx].
  unfold byte_at. rewrite Hx. simpl. by apply drop_S.
Qed.

Lemma count_headers_pairs (mem : bytes) (fuel i n : nat) :
  1 ≤ i → length mem ≤ fuel + i →
  count_headers mem fuel i n = n + crlf_pairs (drop (i - 1) mem).
Proof.
  revert i n. induction fuel as [|fuel IH]; intros i n Hi Hlen; simpl.
  - destruct (drop (i - 1) mem) as [|a [|b s]] eqn:E; simpl; try lia.
    assert (length (drop (i - 1) mem) = 2 + length s) as Hl by (by rewrite E).
    rewrite length_drop in Hl. lia.
  - destruct (Nat.ltb_spec i (length mem)) as [Hlt|Hge].
    + rewrite (drop_byte_at mem (i - 1)) by lia.
      replace (S (i - 1)) with i by lia.
      rewrite (drop_byte_at mem i) by lia. simpl.
      destruct (Ascii.eqb (byte_at mem i) LF && Ascii.eqb (byte_at mem (i - 1)) CR).
      * rewrite IH by lia. replace (i + 2 - 1) with (S i) by lia. lia.
      * rewrite IH by lia. replace (i + 1 - 1) with i by lia.
        by rewrite (drop_byte_at mem i) by lia.
    + destruct (drop (i - 1) mem) as [|a [|b s]] eqn:E; simpl; try lia.
      assert (length (drop (i - 1) mem) = 2 + length s) as Hl by (by rewrite E).
      rewrite length_drop in Hl. lia.
Qed.

Lemma count_headers_total (mem : bytes) :
  count_headers mem (length mem) 1 0 = crlf_pairs mem.
Proof. rewrite count_headers_pairs by lia. done. Qed.

Lemma crlf_pairs_skip (l s : bytes) :
  CR ∉ l → crlf_pairs (l ++ s) = crlf_pairs s.
Proof.
  induction l as [|a l IH]; intros Hl; [done|].
  apply not_elem_of_cons in Hl as [Hne Hl].
  specialize (IH Hl). simpl.
  destruct (l ++ s) as [|b t] eqn:E.
  - apply app_eq_nil in E as [_ ->]. done.
  - destruct (Ascii.eqb_spec a CR) as [->|_]; [done|].
    by rewrite andb_false_r.
Qed.

Lemma crlf_pairs_crlf (s : bytes) : crlf_pairs (CRLF ++ s) = S (crlf_pairs s).
Proof. done. Qed.

(** ** The header loop on well-formed lines *)

Lemma strncasecompare_app (f n r : bytes) (k : nat) :
  k ≤ length n → strncasecompare f (n ++ r) k = strncasecompare f n k.
Proof.
  revert f n. induction k as [|k IH]; intros f n Hk; [done|].
  destruct n as [|b n]; simpl in Hk; [lia|].
  destruct f as [|a f]; simpl; [done|].
  by rewrite IH by lia.
Qed.

Lemma is_blank_CR : is_blank CR = false.
Proof. done. Qed.

Lemma header_step_wf (pre tail : bytes) (h : bytes * bytes) (i a : nat)
    (nva : slots) :
  wf_header h →
  header_step (pre ++ CRLF ++ (header_line h ++ CRLF) ++ tail) i (length pre) a nva
  = StepNext (length (pre ++ CRLF ++ header_line h))
      (if is_host h.1 then i else a)
      (<[i := Some (entry_of h)]> nva).
Proof.
  intros [(c & n' & Hn & Hc) Hcolon Hcr1 Hcr2].
  destruct h as [n rv]; cbn [fst snd] in *.
  set (L := n ++ COLON :: rv).
  remember (pre ++ CRLF ++ (header_line (n, rv) ++ CRLF) ++ tail) as mem eqn:Hmem.
  assert (HcrL : CR ∉ L).
  { unfold L. rewrite not_elem_of_app, not_elem_of_cons. done. }
  assert (HL : length L = length n + 1 + length rv).
  { unfold L. rewrite length_app. simpl. lia. }
  assert (Hnlen : 1 ≤ length n) by (rewrite Hn; simpl; lia).
  assert (Hlen : length mem = length pre + 2 + length L + 2 + length tail).
  { subst mem. unfold header_line, L. len_lia. }
  assert (Hd1 : drop (length pre + 2) mem = L ++ CR :: LF :: tail).
  { replace mem with ((pre ++ CRLF) ++ L ++ CR :: LF :: tail)
      by (subst mem; unfold header_line, L; app_eq).
    apply drop_app_length'. rewrite length_app. simpl. lia. }
  assert (Hd2 : drop (length pre + 2 + length n + 1) mem = rv ++ CR :: LF :: tail).
  { replace mem with ((pre ++ CRLF ++ n ++ [COLON]) ++ rv ++ CR :: LF :: tail)
      by (subst mem; unfold header_line, L; app_eq).
    apply drop_app_length'. len_lia. }
  assert (Hb : byte_at mem (length pre + 2) = c).
  { replace mem with ((pre ++ CRLF) ++ c :: (n' ++ COLON :: rv ++ CRLF ++ tail))
      by (subst mem; unfold header_line; simpl; rewrite Hn; app_eq).
    replace (length pre + 2) with (length (pre ++ CRLF))
      by (rewrite length_app; simpl; lia).
    apply byte_at_middle. }
  assert (Hfind : memchr mem (length pre + 2) CR (length mem - (length pre + 2))
                  = Some (length pre + 2 + length L)).
  { unfold memchr. rewrite Hd1. apply memchr_from_found; [done|lia]. }
  assert (Hscan : scan_colon (drop (length pre + 2) mem) (length L) (length pre + 2)
                  = length pre + 2 + length n).
  { rewrite Hd1, HL. unfold L. rewrite <- app_assoc. simpl.
    apply scan_colon_found; [done|lia]. }
  assert (Hhost : (length n =? 4)
                  && strncasecompare (str "host") (drop (length pre + 2) mem) 4
                  = is_host n).
  { unfold is_host. destruct (Nat.eqb_spec (length n) 4) as [E|_]; [|done].
    cbn [andb]. rewrite Hd1. unfold L. rewrite <- app_assoc.
    apply strncasecompare_app. lia. }
  assert (Hname : sub mem (length pre + 2) (length n) = n).
  { unfold sub. rewrite Hd1. unfold L. rewrite <- app_assoc.
    by rewrite take_app_length. }
  assert (Hskip : skip_blanks (drop (length pre + 2 + length n + 1) mem)
                    (length pre + 2 + length n + 1)
                  = length pre + 2 + length n + 1 + skip_blanks rv 0).
  { rewrite Hd2, skip_blanks_shift, skip_blanks_stop; [done|apply is_blank_CR]. }
  assert (Hvalue : sub mem (length pre + 2 + length n + 1 + skip_blanks rv 0)
                     (length pre + 2 + length L
                      - (length pre + 2 + length n + 1 + skip_blanks rv 0))
                   = ltrim rv).
  { pose proof (skip_blanks_le rv) as Hle. unfold sub, ltrim.
    rewrite <- drop_drop, Hd2.
    rewrite drop_app_le by done.
    apply take_app_length'. rewrite length_drop. lia. }
  unfold header_step. cbv zeta.
  destruct (Nat.ltb_spec (length mem) (length pre + 2)) as [?|_]; [lia|].
  rewrite Hfind.
  destruct (Nat.eqb_spec (length pre + 2 + length L) (length pre + 2)) as [?|_]; [lia|].
  rewrite Hb, Hc.
  replace (length pre + 2 + length L - (length pre + 2)) with (length L) by lia.
  rewrite Hscan.
  destruct (Nat.eqb_spec (length pre + 2 + length n) (length pre + 2)) as [?|_]; [lia|].
  destruct (Nat.eqb_spec (length pre + 2 + length n) (length pre + 2 + length L)) as [?|_]; [lia|].
  cbn [orb].
  replace (length pre + 2 + length n - (length pre + 2)) with (length n) by lia.
  rewrite Hhost, Hskip, Hvalue, Hname.
  f_equal. unfold header_line, L. cbn [fst snd]. len_lia.
Qed.

Lemma header_lines_cons (h : bytes * bytes) (hs : list (bytes * bytes)) :
  header_lines (h :: hs) = (header_line h ++ CRLF) ++ header_lines hs.
Proof. done. Qed.

Lemma header_loop_wf (hs : list (bytes * bytes)) :
  Forall wf_header hs →
  ∀ (pre rest : bytes) (i a : nat) (done_ : slots),
    length done_ = i →
    header_loop (pre ++ CRLF ++ header_lines hs ++ rest) (length hs) i
      (length pre) a (done_ ++ replicate (length hs) None)
    = LoopDone (last_host hs i a) (done_ ++ (Some ∘ entry_of <$> hs)).
Proof.
  induction 1 as [|h hs Hh _ IH]; intros pre rest i a done_ Hi.
  - simpl. by rewrite !app_nil_r.
  - rewrite header_lines_cons.
    replace (pre ++ CRLF ++ ((header_line h ++ CRLF) ++ header_lines hs) ++ rest)
      with (pre ++ CRLF ++ (header_line h ++ CRLF) ++ (header_lines hs ++ rest))
      by app_eq.
    cbn [length header_loop].
    rewrite header_step_wf by done.
    replace (pre ++ CRLF ++ (header_line h ++ CRLF) ++ header_lines hs ++ rest)
      with ((pre ++ CRLF ++ header_line h) ++ CRLF ++ header_lines hs ++ rest)
      by app_eq.
    cbn [replicate].
    rewrite insert_app_r_alt by lia. rewrite Hi, Nat.sub_diag.
    cbn [insert list_insert].
    replace (done_ ++ Some (entry_of h) :: replicate (length hs) None)
      with ((done_ ++ [Some (entry_of h)]) ++ replicate (length hs) None)
      by app_eq.
    rewrite IH by len_lia.
    cbn [last_host]. f_equal. rewrite fmap_cons. app_eq.
Qed.

Lemma crlf_pairs_lines (hs : list (bytes * bytes)) (s : bytes) :
  Forall wf_header hs →
  crlf_pairs (header_lines hs ++ s) = length hs + crlf_pairs s.
Proof.
  induction 1 as [|h hs [_ _ Hn Hv] _ IH]; [done|].
  rewrite header_lines_cons.
  replace (((header_line h ++ CRLF) ++ header_lines hs) ++ s)
    with (header_line h ++ CRLF ++ header_lines hs ++ s) by app_eq.
  rewrite crlf_pairs_skip, crlf_pairs_crlf, IH; [done|].
  unfold header_line. rewrite not_elem_of_app, not_elem_of_cons. done.
Qed.

(** ** Moving :authority *)

Lemma shift_back_fmap {A B} (f : A → B) (l : list A) (i : nat) :
  shift_back (f <$> l) i = (f <$> (shift_back l i).1, (shift_back l i).2).
Proof.
  revert l. induction i as [|i IH]; intros l; [done|].
  cbn [shift_back]. destruct (AUTHORITY_DST_IDX <? S i); [|done].
  rewrite list_lookup_fmap. destruct (l !! i) as [x|]; simpl.
  - by rewrite <- list_fmap_insert, IH.
  - by rewrite IH.
Qed.

Lemma move_authority_fmap {A B} (f : A → B) (l : list A) (k : nat) :
  move_authority (f <$> l) k = f <$> move_authority l k.
Proof.
  unfold move_authority.
  destruct (negb (k =? 0) && negb (k =? AUTHORITY_DST_IDX)); [|done].
  rewrite list_lookup_fmap. destruct (l !! k) as [x|]; simpl; [|done].
  rewrite shift_back_fmap. destruct (shift_back l k) as [l' i]. simpl.
  by rewrite list_fmap_insert.
Qed.

Lemma initialised_Some (l : list quiche_h3_header) :
  initialised (Some <$> l) = Some l.
Proof. unfold initialised. by apply mapM_fmap_Some. Qed.

(** ** Translation of a well-formed block *)

Section WellFormedBlock.
Context (ssl : bool) (m p v : bytes) (hs : list (bytes * bytes)).
Hypothesis Hr : wf_request_line m p v.
Hypothesis Hhs : Forall wf_header hs.

Lemma request_line_no_cr : CR ∉ request_line m p v.
Proof.
  destruct Hr. unfold request_line.
  rewrite not_elem_of_app, not_elem_of_cons, not_elem_of_app, not_elem_of_cons.
  done.
Qed.

Lemma crlf_pairs_block : crlf_pairs (header_block m p v hs) = length hs + 2.
Proof.
  unfold header_block.
  rewrite crlf_pairs_skip by apply request_line_no_cr.
  rewrite crlf_pairs_crlf, crlf_pairs_lines by done. simpl. lia.
Qed.

(** The translated list is the list in source order with the last host
    line rotated to index 3. *)
Lemma translate_wf :
  translate_headers ssl true (header_block m p v hs)
  = Translated (move_authority (in_source_order ssl m p hs) (last_host hs 3 0)).
Proof.
  pose proof Hr as [Hm0 Hmsp Hmcr Hp0 Hpcr Hvsp Hvcr].
  pose proof request_line_no_cr as Hcr.
  remember (header_block m p v hs) as mem eqn:Hmem.
  set (tail := CRLF ++ header_lines hs ++ CRLF).
  assert (Hm1 : 1 ≤ length m) by (destruct m; [done|simpl; lia]).
  assert (Hp1 : 1 ≤ length p) by (destruct p; [done|simpl; lia]).
  assert (Hrl : length (request_line m p v) = length m + 1 + length p + 1 + length v).
  { unfold request_line. len_lia. }
  assert (Hlen : length mem = length (request_line m p v) + length tail).
  { subst mem. unfold header_block. fold tail. len_lia. }
  assert (Hfind : memchr mem 0 CR (length mem) = Some (length (request_line m p v))).
  { unfold memchr. rewrite drop_0, Hlen, Hmem. unfold header_block, CRLF.
    cbn [app]. apply memchr_from_found; [done|]. unfold tail. len_lia. }
  assert (Hsp : memchr mem 0 SP (length (request_line m p v)) = Some (length m)).
  { unfold memchr. rewrite drop_0. subst mem. unfold header_block, request_line.
    rewrite <- app_assoc. cbn [app]. rewrite memchr_from_found; [done|done|].
    fold (request_line m p v). lia. }
  assert (Hmethod : sub mem 0 (length m) = m).
  { unfold sub. rewrite drop_0. subst mem. unfold header_block, request_line.
    rewrite <- app_assoc. by rewrite take_app_length. }
  assert (Hback : rscan_space mem (length m + 1)
                    (length (request_line m p v) - (length m + 1))
                  = Some (length m + 1 + length p)).
  { replace (length (request_line m p v) - (length m + 1))
      with (length p + 1 + length v) by lia.
    replace mem with ((m ++ [SP]) ++ p ++ SP :: v ++ tail)
      by (subst mem; unfold header_block, request_line, tail; app_eq).
    replace (length m + 1) with (length (m ++ [SP])) by len_lia.
    by apply rscan_space_found. }
  assert (Hpath : sub mem (length m + 1) (length m + 1 + length p - (length m + 1)) = p).
  { unfold sub.
    replace mem with ((m ++ [SP]) ++ p ++ SP :: v ++ tail)
      by (subst mem; unfold header_block, request_line, tail; app_eq).
    rewrite drop_app_length' by len_lia.
    apply take_app_length'. lia. }
  unfold translate_headers. cbv zeta.
  rewrite count_headers_total.
  replace (crlf_pairs mem) with (length hs + 2)
    by (subst mem; by rewrite crlf_pairs_block).
  destruct (Nat.ltb_spec (length hs + 2) 2) as [?|_]; [lia|].
  cbn [negb]. rewrite Hfind, Hsp.
  destruct (Nat.eqb_spec (length m) 0) as [?|_]; [lia|].
  rewrite Hback.
  destruct (Nat.eqb_spec (length m + 1 + length p) (length m + 1)) as [?|_]; [lia|].
  rewrite Hmethod, Hpath.
  replace (length hs + 2 + 1) with (S (S (S (length hs)))) by lia.
  cbn [replicate insert list_insert].
  replace (S (S (S (length hs))) - 3) with (length hs) by lia.
  replace mem with (request_line m p v ++ CRLF ++ header_lines hs ++ CRLF)
    by (by subst mem).
  pose proof (header_loop_wf hs Hhs (request_line m p v) CRLF 3 0
                (Some <$> pseudo_headers ssl m p) eq_refl) as Hloop.
  cbn [fmap list_fmap pseudo_headers app] in Hloop. cbn [app].
  rewrite Hloop.
  replace (Some (mk_header (str ":method") m)
           :: Some (mk_header (str ":path") p)
           :: Some (mk_header (str ":scheme") (if ssl then str "https" else str "http"))
           :: (Some ∘ entry_of <$> hs))
    with (Some <$> in_source_order ssl m p hs)
    by (unfold in_source_order; rewrite fmap_app, <- list_fmap_compose; done).
  by rewrite move_authority_fmap, initialised_Some.
Qed.

End WellFormedBlock.

(** ** The rotation of :authority *)

Lemma shift_back_length {A} (l : list A) (k : nat) :
  length (shift_back l k).1 = length l.
Proof.
  revert l. induction k as [|k IH]; intros l; [done|].
  cbn [shift_back]. destruct (AUTHORITY_DST_IDX <? S k); [|done].
  destruct (l !! k); rewrite IH; [apply length_insert|done].
Qed.

Lemma move_authority_length {A} (l : list A) (k : nat) :
  length (move_authority l k) = length l.
Proof.
  unfold move_authority.
  destruct (negb (k =? 0) && negb (k =? AUTHORITY_DST_IDX)); [|done].
  destruct (l !! k); [|done].
  pose proof (shift_back_length l k) as Hl.
  destruct (shift_back l k) as [l' i]. by rewrite length_insert.
Qed.

Lemma shift_back_lookup {A} (l : list A) (k : nat) :
  k < length l →
  (shift_back l k).2 = (if AUTHORITY_DST_IDX <? k then AUTHORITY_DST_IDX else k)
  ∧ ∀ j, (shift_back l k).1 !! j
         = if (AUTHORITY_DST_IDX <? j) && (j <=? k) then l !! (j - 1) else l !! j.
Proof.
  unfold AUTHORITY_DST_IDX.
  revert l. induction k as [|k IH]; intros l Hk.
  - split; [done|]. intros j. cbn [fst shift_back].
    destruct (Nat.ltb_spec 3 j), (Nat.leb_spec j 0); cbn [andb]; try done; lia.
  - cbn [shift_back]. unfold AUTHORITY_DST_IDX.
    destruct (Nat.ltb_spec 3 (S k)) as [Hlt|Hge].
    + destruct (lookup_lt_is_Some_2 l k ltac:(lia)) as [x Hx]. rewrite Hx.
      destruct (IH (<[S k := x]> l)) as [IH1 IH2]; [rewrite length_insert; lia|].
      split.
      * rewrite IH1. destruct (Nat.ltb_spec 3 k); [done|lia].
      * intros j. rewrite IH2.
        destruct (Nat.ltb_spec 3 j), (Nat.leb_spec j k), (Nat.leb_spec j (S k));
          cbn [andb]; try lia.
        -- apply list_lookup_insert_ne. lia.
        -- assert (j = S k) as -> by lia.
           rewrite list_lookup_insert_eq by lia.
           by replace (S k - 1) with k by lia.
        -- apply list_lookup_insert_ne. lia.
        -- apply list_lookup_insert_ne. lia.
    + split; [done|]. intros j. cbn [fst].
      destruct (Nat.ltb_spec 3 j), (Nat.leb_spec j (S k)); cbn [andb]; try done; lia.
Qed.

Lemma move_authority_low {A} (l : list A) (k j : nat) :
  j < AUTHORITY_DST_IDX → move_authority l k !! j = l !! j.
Proof.
  unfold AUTHORITY_DST_IDX. intros Hj. unfold move_authority.
  destruct (negb (k =? 0) && negb (k =? AUTHORITY_DST_IDX)); [|done].
  destruct (l !! k) as [x|] eqn:Hx; [|done].
  destruct (shift_back_lookup l k) as [H1 H2]; [by eapply lookup_lt_Some|].
  destruct (shift_back l k) as [l' i]. cbn [fst snd] in *.
  destruct (decide (i = j)) as [->|Hne].
  - unfold AUTHORITY_DST_IDX in *.
    destruct (Nat.ltb_spec 3 k); [lia|]. subst k.
    rewrite list_lookup_insert, H2.
    destruct (Nat.ltb_spec 3 j); [lia|]. cbn [andb].
    case_decide; congruence.
  - rewrite list_lookup_insert_ne, H2 by done. unfold AUTHORITY_DST_IDX.
    destruct (Nat.ltb_spec 3 j); [lia|done].
Qed.

Lemma move_authority_idle {A} (l : list A) (k : nat) :
  k = 0 ∨ k = AUTHORITY_DST_IDX → move_authority l k = l.
Proof. by intros [-> | ->]. Qed.

(** The rotation written as a list: the three leading entries, the entry
    that sat at [k], the entries that sat at 3 .. k-1, and the rest. *)
Lemma move_authority_rotate {A} (l : list A) (k : nat) (x : A) :
  AUTHORITY_DST_IDX < k → l !! k = Some x →
  move_authority l k
  = take 3 l ++ x :: take (k - 3) (drop 3 l) ++ drop (S k) l.
Proof.
  unfold AUTHORITY_DST_IDX. intros Hk Hx.
  pose proof (lookup_lt_Some _ _ _ Hx) as Hlen.
  unfold move_authority, AUTHORITY_DST_IDX.
  destruct (Nat.eqb_spec k 0) as [?|_]; [lia|].
  destruct (Nat.eqb_spec k 3) as [?|_]; [lia|].
  cbn [negb andb]. rewrite Hx.
  destruct (shift_back_lookup l k Hlen) as [H1 H2].
  pose proof (shift_back_length l k) as H3.
  destruct (shift_back l k) as [l' i]. cbn [fst snd] in *.
  unfold AUTHORITY_DST_IDX in *.
  destruct (Nat.ltb_spec 3 k); [|lia]. subst i.
  apply list_eq. intros j.
  assert (length (take 3 l) = 3) as Ht by (rewrite length_take; lia).
  assert (length (take (k - 3) (drop 3 l)) = k - 3) as Ht'
    by (rewrite length_take, length_drop; lia).
  destruct (decide (j < 3)) as [Hj|Hj].
  - rewrite list_lookup_insert_ne, H2 by lia.
    destruct (Nat.ltb_spec 3 j); [lia|]. cbn [andb].
    rewrite lookup_app_l by lia. by rewrite lookup_take_lt by lia.
  - rewrite lookup_app_r by lia. rewrite Ht.
    destruct (decide (j = 3)) as [->|Hj3].
    + by rewrite list_lookup_insert_eq by lia.
    + rewrite list_lookup_insert_ne, H2 by lia.
      destruct (Nat.ltb_spec 3 j); [|lia]. cbn [andb].
      rewrite lookup_cons_ne_0 by lia.
      destruct (Nat.leb_spec j k).
      * rewrite lookup_app_l by lia.
        rewrite lookup_take_lt, lookup_drop by lia. f_equal. lia.
      * rewrite lookup_app_r by lia. rewrite Ht', lookup_drop. f_equal. lia.
Qed.

Lemma last_host_none (hs : list (bytes * bytes)) (i a : nat) :
  (∀ j h, hs !! j = Some h → is_host h.1 = false) → last_host hs i a = a.
Proof.
  revert i a. induction hs as [|h hs IH]; intros i a Hno; [done|].
  cbn [last_host]. rewrite (Hno 0 h eq_refl).
  apply IH. intros j h' E. by apply (Hno (S j) h').
Qed.

Lemma last_host_at (hs : list (bytes * bytes)) (i a j : nat) (h : bytes * bytes) :
  hs !! j = Some h → is_host h.1 = true →
  (∀ j' h', j < j' → hs !! j' = Some h' → is_host h'.1 = false) →
  last_host hs i a = i + j.
Proof.
  revert i a j. induction hs as [|h0 hs IH]; intros i a j Hj Hh Hlater; [done|].
  cbn [last_host]. destruct j as [|j]; simpl in Hj.
  - injection Hj as ->. rewrite Hh.
    rewrite last_host_none; [lia|].
    intros j' h' E. apply (Hlater (S j') h'); [lia|done].
  - rewrite (IH (i + 1) _ j Hj Hh); [lia|].
    intros j' h' Hlt E. apply (Hlater (S j') h'); [lia|done].
Qed.


(** ** Statements about header translation *)

Ltac wf_line :=
  split; cbn [fst snd]; try compute_done.

Ltac wf_hdr :=
  split; cbn [fst snd];
  [ eexists _, _; split; [vm_compute; reflexivity | reflexivity]
  | compute_done .. ].

Ltac wf_hdrs :=
  repeat (constructor; [wf_hdr|]); constructor.

(** C1: a well-formed block with N header lines translates to N + 3
    entries; entries 0, 1, 2 are :method (the bytes before the first space
    of the request line), :path (the bytes between its first and its last
    space) and :scheme (https on an encrypted connection, http otherwise). *)
Theorem C1_three_pseudo_headers_then_n (ssl : bool) (m p v : bytes)
    (hs : list (bytes * bytes)) :
  wf_request_line m p v → Forall wf_header hs →
  ∃ nva,
    translate_headers ssl true (header_block m p v hs) = Translated nva
    ∧ length nva = length hs + 3
    ∧ nva !! 0 = Some (mk_header (str ":method") m)
    ∧ nva !! 1 = Some (mk_header (str ":path") p)
    ∧ nva !! 2 = Some (mk_header (str ":scheme")
                         (if ssl then str "https" else str "http")).
Proof.
  intros Hr Hhs. eexists. split; [by apply translate_wf|].
  split; [|repeat split; by rewrite move_authority_low by (unfold AUTHORITY_DST_IDX; lia)].
  rewrite move_authority_length. unfold in_source_order.
  rewrite length_app, length_fmap. simpl. lia.
Qed.

Lemma C1_witness :
  ∃ nva,
    translate_headers true true
      (header_block (str "GET") (str "/a b") (str "HTTP/1.1")
         [(str "Accept", str " */*"); (str "X-Id", str "7")])
    = Translated nva
    ∧ length nva = 2 + 3
    ∧ nva !! 0 = Some (mk_header (str ":method") (str "GET"))
    ∧ nva !! 1 = Some (mk_header (str ":path") (str "/a b"))
    ∧ nva !! 2 = Some (mk_header (str ":scheme") (str "https")).
Proof.
  apply (C1_three_pseudo_headers_then_n true (str "GET") (str "/a b")
           (str "HTTP/1.1") [(str "Accept", str " */*"); (str "X-Id", str "7")]).
  - wf_line.
  - wf_hdrs.
Defined.

(** X20: when the header line at array position k > 3 is named host and
    no later line is, the translated list has it, renamed :authority, at
    index 3, the entries that sat at 3 .. k-1 one slot further back in
    their order, and every other entry where it was; the three synthesized
    pseudo-headers come first. *)
Theorem last_host_moves_to_index_3 (ssl : bool) (m p v : bytes)
    (hs : list (bytes * bytes)) (k : nat) (h : bytes * bytes) :
  wf_request_line m p v → Forall wf_header hs →
  3 < k → hs !! (k - 3) = Some h → is_host h.1 = true →
  (∀ j h', k - 3 < j → hs !! j = Some h' → is_host h'.1 = false) →
  host_moved_to_index_3 ssl m p v hs k.
Proof.
  intros Hr Hhs Hk Hh Hhost Hlast. exists h. split; [done|].
  rewrite translate_wf by done.
  rewrite (last_host_at hs 3 0 (k - 3) h) by done.
  replace (3 + (k - 3)) with k by lia.
  assert (in_source_order ssl m p hs !! k = Some (entry_of h)) as Hx.
  { unfold in_source_order. rewrite lookup_app_r by (simpl; lia).
    cbn [length pseudo_headers]. by rewrite list_lookup_fmap, Hh. }
  rewrite (move_authority_rotate _ k _ Hk Hx).
  unfold in_source_order, entry_of. rewrite Hhost.
  change (take 3 (pseudo_headers ssl m p ++ (entry_of <$> hs)))
    with (pseudo_headers ssl m p).
  change (drop 3 (pseudo_headers ssl m p ++ (entry_of <$> hs)))
    with (entry_of <$> hs).
  replace (S k) with (3 + (k - 2)) by lia.
  rewrite <- drop_drop.
  change (drop 3 (pseudo_headers ssl m p ++ (entry_of <$> hs)))
    with (entry_of <$> hs).
  by rewrite fmap_take, fmap_drop.
Qed.

Lemma last_host_moves_witness :
  host_moved_to_index_3 true (str "GET") (str "/") (str "HTTP/1.1")
    [(str "Accept", str " */*"); (str "User-Agent", str " curl");
     (str "hOsT", str "  example.com"); (str "X-Id", str "7")] 5.
Proof.
  apply (last_host_moves_to_index_3 true (str "GET") (str "/")
           (str "HTTP/1.1")
           [(str "Accept", str " */*"); (str "User-Agent", str " curl");
            (str "hOsT", str "  example.com"); (str "X-Id", str "7")]
           5 (str "hOsT", str "  example.com")).
  - wf_line.
  - wf_hdrs.
  - lia.
  - reflexivity.
  - reflexivity.
  - intros [|[|[|[|[|j]]]]] h' Hj E; simpl in E; try lia; try discriminate.
    injection E as <-. reflexivity.
Defined.

(** C2: the code falls short of the claim on a block with two lines named
    host, the request line GET / HTTP/1.1 followed by A: 1, Host: a and
    Host: b. [authority_idx] keeps the index of the last such line only, so
    the list has :authority b at index 3 and the earlier line, renamed
    :authority as well, at index 5, behind the regular header A, where the
    source's own comment wants :authority before the non-pseudo header
    fields; this is the list [http_request] hands to
    [quiche_h3_send_request]. *)
Theorem C2_earlier_host_stays_behind :
  wf_request_line (str "GET") (str "/") (str "HTTP/1.1")
  ∧ Forall wf_header two_hosts
  ∧ translate_headers true true
      (header_block (str "GET") (str "/") (str "HTTP/1.1") two_hosts)
    = Translated two_hosts_translated
  ∧ two_hosts_translated !! 3 = Some (mk_header (str ":authority") (str "b"))
  ∧ two_hosts_translated !! 4 = Some (mk_header (str "A") (str "1"))
  ∧ two_hosts_translated !! 5 = Some (mk_header (str ":authority") (str "a"))
  ∧ filter (λ c, is_send_request c = true)
      (calls_of
         (http_request
            (header_block (str "GET") (str "/") (str "HTTP/1.1") two_hosts))
         a_get_world)
    = [c_quiche_h3_send_request two_hosts_translated true].
Proof.
  split; [wf_line|]. split; [unfold two_hosts; wf_hdrs|].
  split; [by vm_compute|]. split; [reflexivity|]. split; [reflexivity|].
  split; [reflexivity|]. by vm_compute.
Qed.

(** C3, as amended: with the empty line that ends a header block, the
    example translates, on an encrypted connection, to the five entries
    :method GET, :path /index.html, :scheme https, :authority example.com
    and Accept with its value, in that order; as printed, without that
    line, it translates to the first four of them. *)
Theorem C3_example_with_terminator :
  translate_headers true true (example_block ++ CRLF) = Translated five_entries
  ∧ translate_headers true true example_block = Translated (take 4 five_entries).
Proof. split; by vm_compute. Qed.

(** C3 as stated: the block ends after the Accept line, which is then
    taken for the terminator and not translated. *)
Lemma C3_counterexample :
  translate_headers true true example_block = Translated (take 4 five_entries)
  ∧ translate_headers true true example_block ≠ Translated five_entries.
Proof. split; [by vm_compute|]. vm_compute. discriminate. Qed.

(** ** Malformed blocks *)

Lemma crlf_pairs_ends (l : bytes) : 1 ≤ crlf_pairs (l ++ CRLF).
Proof.
  assert (∀ n (l : bytes), length l ≤ n → 1 ≤ crlf_pairs (l ++ [CR; LF])) as H.
  { induction n as [|n IH]; intros [|a [|b k]] Hn; simpl in Hn; try lia.
    - vm_compute. lia.
    - vm_compute. lia.
    - cbn [app crlf_pairs]. destruct (Ascii.eqb CR LF && Ascii.eqb a CR);
        vm_compute; lia.
    - change ((a :: b :: k) ++ [CR; LF]) with (a :: b :: (k ++ [CR; LF])).
      cbn [crlf_pairs]. destruct (Ascii.eqb b LF && Ascii.eqb a CR); [lia|].
      apply (IH (b :: k)). simpl. lia. }
  by apply (H (length l)).
Qed.

Lemma request_line_fails (ssl : bool) (rl rest : bytes) :
  CR ∉ rl → ¬ isolates rl →
  ∃ a, translate_headers ssl true (rl ++ CR :: rest) = GotoFail a.
Proof.
  intros Hcr Hno. unfold translate_headers. cbv zeta.
  destruct (_ <? 2); [by eexists|]. cbn [negb].
  assert (memchr (rl ++ CR :: rest) 0 CR (length (rl ++ CR :: rest))
          = Some (length rl)) as ->.
  { unfold memchr. rewrite drop_0. apply memchr_from_found; [done|len_lia]. }
  destruct (decide (SP ∈ rl)) as [Hin|Hout].
  - apply list_elem_of_split_l in Hin as (m & r & -> & Hm).
    assert (memchr ((m ++ SP :: r) ++ CR :: rest) 0 SP (length (m ++ SP :: r))
            = Some (length m)) as ->.
    { unfold memchr. rewrite drop_0, <- app_assoc. cbn [app].
      apply memchr_from_found; [done|len_lia]. }
    destruct m as [|c m]; [by eexists|].
    destruct (Nat.eqb_spec (length (c :: m)) 0) as [?|_]; [done|].
    replace (length ((c :: m) ++ SP :: r) - (length (c :: m) + 1))
      with (length r) by len_lia.
    destruct (decide (SP ∈ r)) as [Hin|Hout].
    + apply list_elem_of_split_r in Hin as (p & v & -> & Hv).
      replace (((c :: m) ++ SP :: p ++ SP :: v) ++ CR :: rest)
        with (((c :: m) ++ [SP]) ++ p ++ SP :: v ++ CR :: rest) by app_eq.
      replace (length (c :: m) + 1) with (length ((c :: m) ++ [SP])) by len_lia.
      replace (length (p ++ SP :: v)) with (length p + 1 + length v) by len_lia.
      rewrite rscan_space_found by done.
      destruct p as [|d p].
      * rewrite Nat.add_0_r, Nat.eqb_refl. by eexists.
      * exfalso. apply Hno. exists (c :: m), (d :: p), v. done.
    + replace (((c :: m) ++ SP :: r) ++ CR :: rest)
        with (((c :: m) ++ [SP]) ++ r ++ CR :: rest) by app_eq.
      replace (length (c :: m) + 1) with (length ((c :: m) ++ [SP])) by len_lia.
      rewrite rscan_space_absent by done. by eexists.
  - assert (memchr (rl ++ CR :: rest) 0 SP (length rl) = None) as ->; [|by eexists].
    unfold memchr. rewrite drop_0. by apply memchr_from_none.
Qed.

Lemma header_loop_prefix (hs : list (bytes * bytes)) :
  Forall wf_header hs →
  ∀ (pre rest : bytes) (i a : nat) (nva : slots) (todo : nat),
    ∃ a' nva',
      header_loop (pre ++ CRLF ++ header_lines hs ++ rest) (length hs + todo) i
        (length pre) a nva
      = header_loop (pre ++ CRLF ++ header_lines hs ++ rest) todo
          (i + length hs) (length pre + length (header_lines hs)) a' nva'.
Proof.
  induction 1 as [|h hs Hh _ IH]; intros pre rest i a nva todo.
  - exists a, nva. simpl. by rewrite !Nat.add_0_r.
  - rewrite header_lines_cons.
    replace (pre ++ CRLF ++ ((header_line h ++ CRLF) ++ header_lines hs) ++ rest)
      with (pre ++ CRLF ++ (header_line h ++ CRLF) ++ (header_lines hs ++ rest))
      by app_eq.
    cbn [length Nat.add header_loop].
    rewrite header_step_wf by done.
    replace (pre ++ CRLF ++ (header_line h ++ CRLF) ++ header_lines hs ++ rest)
      with ((pre ++ CRLF ++ header_line h) ++ CRLF ++ header_lines hs ++ rest)
      by app_eq.
    destruct (IH (pre ++ CRLF ++ header_line h) rest (i + 1)
                (if is_host h.1 then i else a)
                (<[i := Some (entry_of h)]> nva) todo) as (a' & nva' & ->).
    exists a', nva'. f_equal; len_lia.
Qed.

Lemma header_step_continuation (mem : bytes) (i line_end a : nat) (nva : slots)
    (c : ascii) (l tail : bytes) :
  drop (line_end + 2) mem = (c :: l) ++ CR :: tail →
  is_blank c = true → CR ∉ l →
  header_step mem i line_end a nva = StepFail.
Proof.
  intros Hd Hc Hl.
  assert (length mem = line_end + 2 + length (c :: l) + 1 + length tail) as Hlen.
  { assert (length (drop (line_end + 2) mem) = length ((c :: l) ++ CR :: tail))
      as E by (by rewrite Hd).
    rewrite length_drop, length_app in E. simpl in *. lia. }
  assert (CR ∉ (c :: l)) as Hcl.
  { apply not_elem_of_cons. split; [|done]. intros <-. done. }
  unfold header_step. cbv zeta.
  destruct (Nat.ltb_spec (length mem) (line_end + 2)) as [?|_]; [lia|].
  unfold memchr. rewrite Hd, memchr_from_found by (try done; lia).
  destruct (Nat.eqb_spec (line_end + 2 + length (c :: l)) (line_end + 2)) as [E|_];
    [simpl in E; lia|].
  replace (byte_at mem (line_end + 2)) with c; [by rewrite Hc|].
  unfold byte_at. replace (line_end + 2) with (line_end + 2 + 0) by lia.
  by rewrite <- lookup_drop, Hd.
Qed.

Lemma continuation_line_fails (ssl : bool) (mem : bytes) :
  has_continuation_line mem → translate_headers ssl true mem = GotoFail true.
Proof.
  intros (rl & before & c & l & later & -> & Hrl & Hb & Hc & Hl).
  set (X := (c :: l) ++ CRLF ++ later ++ CRLF).
  remember (rl ++ CRLF ++ header_lines before ++ X) as mem eqn:Hmem.
  assert (CR ∉ (c :: l)) as Hcl.
  { apply not_elem_of_cons. split; [|done]. intros <-. done. }
  assert (∃ extra, crlf_pairs mem + 1 - 3 = length before + S extra) as [extra Hn].
  { subst mem. rewrite crlf_pairs_skip, crlf_pairs_crlf, crlf_pairs_lines by done.
    unfold X. rewrite crlf_pairs_skip, crlf_pairs_crlf by done.
    pose proof (crlf_pairs_ends later).
    exists (crlf_pairs (later ++ CRLF) - 1). lia. }
  assert (∀ i a nva, header_loop mem (crlf_pairs mem + 1 - 3) i (length rl) a nva
                     = LoopFail) as Hloop.
  { intros i a nva. rewrite Hn, Hmem.
    destruct (header_loop_prefix before Hb rl X i a nva (S extra))
      as (a' & nva' & ->).
    cbn [header_loop].
    rewrite (header_step_continuation _ _ _ _ _ c l (LF :: later ++ CRLF)); try done.
    replace (rl ++ CRLF ++ header_lines before ++ X)
      with ((rl ++ CRLF ++ header_lines before) ++ X) by app_eq.
    apply drop_app_length'. len_lia. }
  assert (memchr mem 0 CR (length mem) = Some (length rl)) as Hfind.
  { unfold memchr. rewrite drop_0, Hmem. unfold CRLF at 1. cbn [app].
    apply memchr_from_found; [done|len_lia]. }
  unfold translate_headers. cbv zeta. rewrite count_headers_total.
  destruct (Nat.ltb_spec (crlf_pairs mem) 2) as [?|_]; [lia|].
  cbn [negb]. rewrite Hfind.
  destruct (memchr mem 0 SP (length rl)) as [e|]; [|done].
  destruct (e =? 0); [done|].
  destruct (rscan_space mem (e + 1) (length rl - (e + 1))) as [e2|]; [|done].
  destruct (e2 =? e + 1); [done|].
  by rewrite Hloop.
Qed.

(** ** Running the request driver *)

Ltac run_M :=
  unfold mbind, M_bind, mret, M_ret, call_out, modify, get, fault_with, fmap;
  cbn -[translate_headers cumulative_length Z.ltb Z.of_nat].

Lemma calls_of_log {A} (m : M A) (w : world) (cs : list call) :
  trace (after (m w)) = trace w ++ cs → calls_of m w = cs.
Proof. intros E. unfold calls_of. rewrite E. apply drop_app_length. Qed.

Lemma http_request_goto_fail (w : world) (mem : bytes) (a : bool) :
  translate_headers (ssl w) (malloc_ok w) mem = GotoFail a →
  malloc_ok w = true →
  returned (http_request mem w) = Some CURLE_SEND_ERROR
  ∧ heap_live (after (http_request mem w)) = heap_live w
  ∧ calls_of (http_request mem) w
    = [c_quiche_h3_config_new; c_quiche_h3_conn_new_with_transport]
      ++ (if a then [c_malloc; c_free] else []).
Proof.
  intros E Hm. unfold http_request. run_M. rewrite E.
  destruct a; run_M; unfold malloc, free; run_M; rewrite ?Hm; run_M.
  - repeat split. apply calls_of_log. unfold http_request. run_M. rewrite E.
    run_M. unfold malloc, free. run_M. rewrite Hm. run_M. app_eq.
  - repeat split. apply calls_of_log. unfold http_request. run_M. rewrite E.
    run_M. app_eq.
Qed.

(** C8: a block with a header line that begins with a space or a tab, and
    a block whose request line does not isolate method and path, make
    [http_request] take its [fail] exit: it returns CURLE_SEND_ERROR (the
    adapter's code for a malformed request), and the array, when it had
    been allocated, has been freed. *)
Theorem C8_malformed_request_fails (w : world) (mem : bytes) :
  malloc_ok w = true →
  has_continuation_line mem ∨ request_line_lacks_space mem →
  returned (http_request mem w) = Some CURLE_SEND_ERROR
  ∧ heap_live (after (http_request mem w)) = heap_live w
  ∧ ∃ allocated : bool,
      calls_of (http_request mem) w
      = [c_quiche_h3_config_new; c_quiche_h3_conn_new_with_transport]
        ++ (if allocated then [c_malloc; c_free] else []).
Proof.
  intros Hm H.
  assert (∃ a, translate_headers (ssl w) (malloc_ok w) mem = GotoFail a)
    as [a E].
  { rewrite Hm. destruct H as [H|(rl & rest & -> & Hcr & Hno)].
    - exists true. by apply continuation_line_fails.
    - by apply request_line_fails. }
  destruct (http_request_goto_fail w mem a E Hm) as (H1 & H2 & H3).
  eauto.
Qed.

Lemma C8_witness :
  returned (http_request folded_block a_get_world) = Some CURLE_SEND_ERROR
  ∧ heap_live (after (http_request folded_block a_get_world)) = 0
  ∧ ∃ allocated : bool,
      calls_of (http_request folded_block) a_get_world
      = [c_quiche_h3_config_new; c_quiche_h3_conn_new_with_transport]
        ++ (if allocated then [c_malloc; c_free] else []).
Proof.
  apply (C8_malformed_request_fails a_get_world folded_block).
  - reflexivity.
  - left. exists (str "GET / HTTP/1.1"), [(str "Accept", str " a,")],
      " "%char, (str "b"), (str "X: 1" ++ CRLF).
    split; [reflexivity|]. split; [compute_done|].
    split; [wf_hdrs|]. split; [reflexivity|compute_done].
Defined.

Lemma http_request_upload (w : world) (mem : bytes) (nva : list quiche_h3_header) :
  translate_headers (ssl w) (malloc_ok w) mem = Translated nva →
  malloc_ok w = true →
  is_upload (httpreq w) = true →
  ∃ w',
    http_request mem w = Faults (ReadsUninitialised "stream3_id") w'
    ∧ upload_left w' = (if bool_decide (infilesize w ≠ (-1)%Z) then infilesize w else (-1)%Z)
    ∧ trace w' = trace w
        ++ [c_quiche_h3_config_new; c_quiche_h3_conn_new_with_transport; c_malloc]
        ++ (if (MAX_ACC <? cumulative_length nva)%Z then [c_infof_size_warning] else [])
        ++ [c_free].
Proof.
  intros E Hm Hu. unfold http_request. run_M. rewrite E. run_M.
  unfold malloc. run_M. rewrite Hm. run_M. unfold size_warning.
  destruct (MAX_ACC <? cumulative_length nva)%Z; run_M;
    unfold submit; run_M; rewrite Hu; run_M;
    destruct (bool_decide (infilesize w ≠ (-1)%Z)); run_M;
    unfold free; run_M; eexists; (split; [reflexivity|]); split; try done;
    app_eq.
Qed.

Lemma translated_needs_malloc (ssl malloc_ok : bool) (mem : bytes)
    (nva : list quiche_h3_header) :
  translate_headers ssl malloc_ok mem = Translated nva → malloc_ok = true.
Proof.
  unfold translate_headers. cbv zeta.
  destruct (_ <? 2); [done|]. by destruct malloc_ok.
Qed.

(** C4: for an upload method (POST, POST-form, POST-mime, PUT) and a block
    that translates, [http_request] makes no call of
    [quiche_h3_send_request], sets [upload_left] to the declared length, or
    to -1 when none was declared, and then reads its local [stream3_id],
    which no statement has assigned. *)
Theorem C4_upload_reads_unassigned_stream_id (w : world) (mem : bytes)
    (nva : list quiche_h3_header) :
  is_upload (httpreq w) = true →
  translate_headers (ssl w) (malloc_ok w) mem = Translated nva →
  Forall (λ c, is_send_request c = false) (calls_of (http_request mem) w)
  ∧ upload_left (after (http_request mem w))
    = (if bool_decide (infilesize w ≠ (-1)%Z) then infilesize w else (-1)%Z)
  ∧ http_request mem w
    = Faults (ReadsUninitialised "stream3_id") (after (http_request mem w)).
Proof.
  intros Hu E.
  pose proof (translated_needs_malloc _ _ _ _ E) as Hm.
  destruct (http_request_upload w mem nva E Hm Hu) as (w' & H1 & H2 & H3).
  rewrite (calls_of_log _ _ _ ltac:(rewrite H1; exact H3)).
  rewrite H1. cbn [after]. repeat split; [|done].
  destruct (MAX_ACC <? cumulative_length nva)%Z; repeat constructor.
Qed.

Lemma C4_witness :
  Forall (λ c, is_send_request c = false)
    (calls_of (http_request (example_block ++ CRLF)) a_put_world)
  ∧ upload_left (after (http_request (example_block ++ CRLF) a_put_world))
    = 1234%Z
  ∧ http_request (example_block ++ CRLF) a_put_world
    = Faults (ReadsUninitialised "stream3_id")
        (after (http_request (example_block ++ CRLF) a_put_world)).
Proof.
  apply (C4_upload_reads_unassigned_stream_id a_put_world
           (example_block ++ CRLF) five_entries).
  - reflexivity.
  - vm_compute. reflexivity.
Defined.

Lemma exact_length_nonneg (nva : list quiche_h3_header) :
  (0 ≤ exact_length nva)%Z.
Proof. induction nva as [|h nva IH]; simpl; lia. Qed.

Lemma cumulative_length_exact (nva : list quiche_h3_header) :
  (exact_length nva < 2 ^ 64)%Z → cumulative_length nva = exact_length nva.
Proof.
  unfold cumulative_length.
  assert (∀ acc, (0 ≤ acc)%Z → (acc + exact_length nva < 2 ^ 64)%Z →
    foldl (λ acc h, size_add acc (size_add (Z.of_nat (name_len h))
                                           (Z.of_nat (value_len h)))) acc nva
    = (acc + exact_length nva)%Z) as H.
  { induction nva as [|h nva IH]; intros acc H0 Hb; cbn [foldl].
    { cbn in Hb. cbn. lia. }
    change (exact_length (h :: nva))
      with (Z.of_nat (name_len h) + Z.of_nat (value_len h) + exact_length nva)%Z
      in *.
    pose proof (exact_length_nonneg nva).
    assert (size_add acc (size_add (Z.of_nat (name_len h)) (Z.of_nat (value_len h)))
            = (acc + (Z.of_nat (name_len h) + Z.of_nat (value_len h)))%Z) as ->.
    { unfold size_add. change (2 ^ 64)%Z with 18446744073709551616%Z in *.
      rewrite (Z.mod_small (Z.of_nat _ + _)%Z) by lia.
      apply Z.mod_small. lia. }
    rewrite IH by lia. lia. }
  intros Hb. rewrite H by lia. lia.
Qed.

Lemma http_request_translated (w : world) (mem : bytes)
    (nva : list quiche_h3_header) :
  translate_headers (ssl w) (malloc_ok w) mem = Translated nva →
  calls_of (http_request mem) w
  = [c_quiche_h3_config_new; c_quiche_h3_conn_new_with_transport; c_malloc]
    ++ (if (MAX_ACC <? cumulative_length nva)%Z then [c_infof_size_warning] else [])
    ++ (if is_upload (httpreq w) then [] else [c_quiche_h3_send_request nva true])
    ++ [c_free]
  ∧ (is_upload (httpreq w) = false →
     returned (http_request mem w)
     = Some (if (send_request_ret w <? 0)%Z then CURLE_SEND_ERROR else CURLE_OK)).
Proof.
  intros E. pose proof (translated_needs_malloc _ _ _ _ E) as Hm.
  destruct (is_upload (httpreq w)) eqn:Hu.
  - destruct (http_request_upload w mem nva E Hm Hu) as (w' & H1 & H2 & H3).
    split; [|done]. apply calls_of_log. rewrite H1. cbn [after]. rewrite H3.
    by destruct (MAX_ACC <? cumulative_length nva)%Z.
  - assert (∃ w', http_request mem w
                  = Returns (if (send_request_ret w <? 0)%Z
                             then CURLE_SEND_ERROR else CURLE_OK) w'
              ∧ trace w' = trace w
                  ++ [c_quiche_h3_config_new; c_quiche_h3_conn_new_with_transport;
                      c_malloc]
                  ++ (if (MAX_ACC <? cumulative_length nva)%Z
                      then [c_infof_size_warning] else [])
                  ++ [c_quiche_h3_send_request nva true] ++ [c_free])
      as (w' & H1 & H2).
    { unfold http_request. run_M. rewrite E. run_M.
      unfold malloc. run_M. rewrite Hm. run_M. unfold size_warning.
      destruct (MAX_ACC <? cumulative_length nva)%Z; run_M;
        unfold submit; run_M; rewrite Hu; run_M;
        unfold quiche_h3_send_request, free; run_M;
        destruct (send_request_ret w <? 0)%Z; run_M;
        eexists; (split; [reflexivity|]); app_eq. }
    split.
    + apply calls_of_log. by rewrite H1.
    + intros _. by rewrite H1.
Qed.

(** C9: for a translated list whose names and values add up to exactly
    60000 bytes [http_request] logs no size warning, from 60001 bytes on it
    logs one; either way the list goes on unchanged to the submission
    switch, which, for a method without body, submits it. *)
Theorem C9_size_warning_threshold (w : world) (mem : bytes)
    (nva : list quiche_h3_header) :
  translate_headers (ssl w) (malloc_ok w) mem = Translated nva →
  (exact_length nva < 2 ^ 64)%Z →
  (exact_length nva = 60000%Z →
   c_infof_size_warning ∉ calls_of (http_request mem) w)
  ∧ ((60001 ≤ exact_length nva)%Z →
     c_infof_size_warning ∈ calls_of (http_request mem) w)
  ∧ (is_upload (httpreq w) = false →
     c_quiche_h3_send_request nva true ∈ calls_of (http_request mem) w
     ∧ returned (http_request mem w)
       = Some (if (send_request_ret w <? 0)%Z then CURLE_SEND_ERROR else CURLE_OK)).
Proof.
  intros E Hb. destruct (http_request_translated w mem nva E) as [-> Hr].
  rewrite cumulative_length_exact by done. unfold MAX_ACC.
  split; [|split].
  - intros ->. cbn [Z.ltb Z.compare Pos.compare Pos.compare_cont].
    destruct (is_upload (httpreq w)); compute_done.
  - intros H. destruct (Z.ltb_spec 60000 (exact_length nva)) as [_|?]; [|lia].
    rewrite !elem_of_app, !elem_of_cons. tauto.
  - intros Hu. split; [|by apply Hr]. rewrite Hu.
    rewrite !elem_of_app, !elem_of_cons. tauto.
Qed.

Lemma long_path_wf : wf_request_line (str "GET") long_path (str "HTTP/1.1").
Proof.
  split; compute_done.
Defined.

Lemma C9_witness :
  exact_length (in_source_order true (str "GET") long_path []) = 60000%Z
  ∧ (c_infof_size_warning ∉ calls_of (http_request block_60000) a_get_world)
  ∧ c_quiche_h3_send_request (in_source_order true (str "GET") long_path []) true
    ∈ calls_of (http_request block_60000) a_get_world.
Proof.
  assert (exact_length (in_source_order true (str "GET") long_path []) = 60000%Z)
    as Hlen by (vm_compute; reflexivity).
  split; [exact Hlen|].
  destruct (C9_size_warning_threshold a_get_world block_60000
              (in_source_order true (str "GET") long_path []))
    as (H1 & _ & H3).
  - exact (translate_wf true (str "GET") long_path (str "HTTP/1.1") []
             long_path_wf (Forall_nil_2 _)).
  - rewrite Hlen. reflexivity.
  - split; [exact (H1 Hlen)|]. exact (proj1 (H3 eq_refl)).
Defined.

(** ** The ingress pump *)

Lemma ingress_loop_accepted (ds : list (bytes * Z)) (q : list inbound) :
  accepted ds →
  ingress_loop (datagrams ds ++ q)
  = (let '(r, q', cs) := ingress_loop q in (r, q', fed ds ++ cs)).
Proof.
  induction 1 as [|[d r] ds Hr _ IH]; simpl in *.
  - by destruct (ingress_loop q) as [[? ?] ?].
  - unfold QUICHE_ERR_DONE.
    destruct (Z.eqb_spec r (-1)) as [?|_]; [lia|].
    destruct (Z.ltb_spec r 0) as [?|_]; [lia|].
    fold (datagrams ds). rewrite IH.
    by destruct (ingress_loop q) as [[? ?] ?].
Qed.

Lemma process_ingress_run (w : world) (r : CURLcode) (q : list inbound)
    (cs : list call) :
  ingress_loop (sock_in w) = (r, q, cs) →
  process_ingress w = Returns r (log cs (set_sock_in q w)).
Proof. intros E. unfold process_ingress. by rewrite E. Qed.

Lemma process_ingress_after (w : world) (ds : list (bytes * Z))
    (q q' : list inbound) (r : CURLcode) (cs : list call) :
  accepted ds → sock_in w = datagrams ds ++ q → ingress_loop q = (r, q', cs) →
  returned (process_ingress w) = Some r
  ∧ calls_of process_ingress w = fed ds ++ cs
  ∧ sock_in (after (process_ingress w)) = q'.
Proof.
  intros Ha Hw Hq.
  assert (process_ingress w = Returns r (log (fed ds ++ cs) (set_sock_in q' w)))
    as E.
  { apply process_ingress_run. by rewrite Hw, ingress_loop_accepted, Hq. }
  split; [by rewrite E|]. split; [|by rewrite E].
  apply calls_of_log. by rewrite E.
Qed.

(** C5: with K datagrams queued that the engine takes, followed by the
    socket's would-block, one call of [process_ingress] feeds all K to
    [quiche_conn_recv] in order and returns CURLE_OK. It returns CURLE_OK
    when the socket reports would-block or the engine reports
    QUICHE_ERR_DONE, and CURLE_RECV_ERROR on any other error of [recv] and
    on any other negative answer of the engine, where it stops. *)
Theorem C5_ingress_drains (w : world) (ds : list (bytes * Z))
    (rest : list inbound) :
  accepted ds →
  (∀ errno, errno = EAGAIN ∨ errno = EWOULDBLOCK →
     sock_in w = datagrams ds ++ RecvError errno :: rest →
     returned (process_ingress w) = Some CURLE_OK
     ∧ calls_of process_ingress w = fed ds ++ [c_recv]
     ∧ sock_in (after (process_ingress w)) = rest)
  ∧ (sock_in w = datagrams ds →
     returned (process_ingress w) = Some CURLE_OK
     ∧ calls_of process_ingress w = fed ds ++ [c_recv])
  ∧ (∀ d, sock_in w = datagrams ds ++ Datagram d QUICHE_ERR_DONE :: rest →
     returned (process_ingress w) = Some CURLE_OK
     ∧ calls_of process_ingress w = fed ds ++ [c_recv; c_quiche_conn_recv d]
     ∧ sock_in (after (process_ingress w)) = rest)
  ∧ (∀ errno, errno ≠ EAGAIN → errno ≠ EWOULDBLOCK →
     sock_in w = datagrams ds ++ RecvError errno :: rest →
     returned (process_ingress w) = Some CURLE_RECV_ERROR
     ∧ calls_of process_ingress w = fed ds ++ [c_recv]
     ∧ sock_in (after (process_ingress w)) = rest)
  ∧ (∀ d r, (r < 0)%Z → r ≠ QUICHE_ERR_DONE →
     sock_in w = datagrams ds ++ Datagram d r :: rest →
     returned (process_ingress w) = Some CURLE_RECV_ERROR
     ∧ calls_of process_ingress w = fed ds ++ [c_recv; c_quiche_conn_recv d]
     ∧ sock_in (after (process_ingress w)) = rest).
Proof.
  intros Ha. split; [|split; [|split; [|split]]].
  - intros errno Herr Hw.
    apply (process_ingress_after w ds (RecvError errno :: rest)); try done.
    by destruct Herr as [-> | ->].
  - intros Hw. rewrite <- (app_nil_r (datagrams ds)) in Hw.
    destruct (process_ingress_after w ds [] [] CURLE_OK [c_recv] Ha Hw eq_refl)
      as (H1 & H2 & _).
    done.
  - intros d Hw.
    by apply (process_ingress_after w ds (Datagram d QUICHE_ERR_DONE :: rest)).
  - intros errno H1 H2 Hw.
    apply (process_ingress_after w ds (RecvError errno :: rest)); try done.
    simpl. destruct (Z.eqb_spec errno EAGAIN); [done|].
    by destruct (Z.eqb_spec errno EWOULDBLOCK).
  - intros d r H1 H2 Hw.
    apply (process_ingress_after w ds (Datagram d r :: rest)); try done.
    simpl. destruct (Z.eqb_spec r QUICHE_ERR_DONE); [done|].
    destruct (Z.ltb_spec r 0); [done|lia].
Qed.

Lemma C5_witness :
  returned (process_ingress a_draining_world) = Some CURLE_OK
  ∧ calls_of process_ingress a_draining_world
    = [ c_recv; c_quiche_conn_recv (str "first");
        c_recv; c_quiche_conn_recv (str "second"); c_recv ]
  ∧ sock_in (after (process_ingress a_draining_world))
    = [Datagram (str "later") 5].
Proof.
  assert (accepted two_datagrams) as Ha.
  { repeat constructor; simpl; lia. }
  destruct (C5_ingress_drains a_draining_world two_datagrams
              [Datagram (str "later") 5] Ha) as (H & _).
  exact (H EAGAIN (or_introl eq_refl) eq_refl).
Defined.

(** ** The event dispatcher and the send path *)

Lemma poll_loop_count (evs : list (nat * h3_event)) (recvd : Z) :
  (poll_loop evs recvd).1
  = match most_recent_data evs with Some b => b | None => recvd end.
Proof.
  revert recvd. induction evs as [|[s ev] evs IH]; intros recvd; [done|].
  cbn [poll_loop most_recent_data].
  destruct ev as [hs|body|closed];
    (destruct (poll_loop evs _) as [r cs'] eqn:E; cbn [fst];
     match type of E with poll_loop _ ?x = _ =>
       specialize (IH x); rewrite E in IH; cbn [fst] in IH end;
     rewrite IH; by destruct (most_recent_data evs)).
Qed.

Lemma h3_stream_recv_run (w : world) :
  h3_stream_recv w
  = (let '(r, q, cs) := ingress_loop (sock_in w) in
     let w1 := log cs (set_sock_in q w) in
     if bool_decide (r ≠ CURLE_OK) then Returns ((-1)%Z, CURLE_RECV_ERROR) w1 else
     let w2 := set_stream_recv_rets (tail (stream_recv_rets w))
                 (log [c_quiche_conn_stream_recv 0] w1) in
     if (direct_read w =? QUICHE_ERR_DONE)%Z
     then Returns ((-1)%Z, CURLE_AGAIN) w2
     else
       let '(recvd, cs') := poll_loop (pending w) (direct_read w) in
       Returns (recvd, CURLE_OK) (log cs' (set_h3_events [] w2))).
Proof.
  unfold h3_stream_recv, process_ingress. run_M.
  destruct (ingress_loop (sock_in w)) as [[r q] cs]. run_M.
  destruct (bool_decide (r ≠ CURLE_OK)); [done|].
  unfold quiche_conn_stream_recv, direct_read, pending. run_M.
  destruct (stream_recv_rets w) as [|x rets] eqn:E; run_M.
  { unfold set_stream_recv_rets, log, set_sock_in. cbn. by rewrite E. }
  destruct (x =? QUICHE_ERR_DONE)%Z; [done|]. run_M.
  by destruct (poll_loop _ x) as [recvd cs'].
Qed.

(** C6: in a [h3_stream_recv] that ends with CURLE_OK the returned count
    is the one of the most recent Data event of its poll loop and, with no
    such event, the one of the direct stream read; that is the case when
    there is no HTTP/3 context yet and the engine, having none, has no
    event to report. The code itself does not look at the context: the
    count is the same with and without one. A Data event whose body read
    is not positive is no error: whatever the pending events are, the call
    ends with CURLE_OK as well, and all of them are dispatched. *)
Theorem C6_recv_returns_last_data_count (w w' : world) (n : Z) :
  h3_stream_recv w = Returns (n, CURLE_OK) w' →
  (∀ b, most_recent_data (pending w) = Some b → n = b)
  ∧ (most_recent_data (pending w) = None → n = direct_read w)
  ∧ (h3c w = false → engine_needs_context w → n = direct_read w)
  ∧ (∀ ctx, returned (h3_stream_recv (set_h3c ctx w)) = Some (n, CURLE_OK))
  ∧ h3_events w' = []
  ∧ ∀ evs, ∃ n2 w2,
      h3_stream_recv (set_h3_events evs w) = Returns (n2, CURLE_OK) w2.
Proof.
  intros Hrun.
  assert (∀ ctx, returned (h3_stream_recv (set_h3c ctx w))
                 = Some (n, CURLE_OK)) as Hsame.
  { intros ctx. revert Hrun. rewrite !h3_stream_recv_run.
    change (sock_in (set_h3c ctx w)) with (sock_in w).
    change (direct_read (set_h3c ctx w)) with (direct_read w).
    change (pending (set_h3c ctx w)) with (pending w).
    destruct (ingress_loop (sock_in w)) as [[r q] cs]. cbv zeta.
    destruct (bool_decide (r ≠ CURLE_OK)); [done|].
    destruct (direct_read w =? QUICHE_ERR_DONE)%Z; [done|].
    destruct (poll_loop (pending w) (direct_read w)) as [recvd cs'].
    by intros [= <- <-]. }
  revert Hrun. rewrite h3_stream_recv_run.
  destruct (ingress_loop (sock_in w)) as [[r q] cs] eqn:Ei. cbv zeta.
  destruct (bool_decide (r ≠ CURLE_OK)) eqn:Er; [done|].
  destruct (direct_read w =? QUICHE_ERR_DONE)%Z eqn:Ed; [done|].
  pose proof (poll_loop_count (pending w) (direct_read w)) as Hc.
  destruct (poll_loop (pending w) (direct_read w)) as [recvd cs'].
  cbn [fst] in Hc. intros [= <- <-].
  split; [|split; [|split; [|split; [|split]]]].
  - intros b Hb. by rewrite Hc, Hb.
  - intros Hb. by rewrite Hc, Hb.
  - intros Hh He. rewrite Hc. unfold pending. by rewrite (He Hh).
  - exact Hsame.
  - done.
  - intros evs. rewrite h3_stream_recv_run.
    change (sock_in (set_h3_events evs w)) with (sock_in w). rewrite Ei.
    cbv zeta. rewrite Er.
    change (direct_read (set_h3_events evs w)) with (direct_read w). rewrite Ed.
    destruct (poll_loop _ _) as [n2 cs2]. by eexists _, _.
Qed.

Lemma C6_witness :
  (∃ w',
     h3_stream_recv a_receiving_world = Returns (0%Z, CURLE_OK) w'
     ∧ most_recent_data (pending a_receiving_world) = Some 0%Z
     ∧ h3_events w' = [])
  ∧ (∃ w',
       h3_stream_recv a_world_before_the_request = Returns (10%Z, CURLE_OK) w'
       ∧ h3c a_world_before_the_request = false
       ∧ engine_needs_context a_world_before_the_request
       ∧ direct_read a_world_before_the_request = 10%Z).
Proof.
  split.
  - eexists. split; [vm_compute; reflexivity|]. split; [reflexivity|].
    exact (proj1 (proj2 (proj2 (proj2 (proj2
      (C6_recv_returns_last_data_count a_receiving_world _ 0%Z eq_refl)))))).
  - eexists. split; [vm_compute; reflexivity|]. split; [reflexivity|].
    split; [intros _; reflexivity|].
    symmetry.
    exact (proj1 (proj2 (proj2
      (C6_recv_returns_last_data_count a_world_before_the_request _ 10%Z
         eq_refl))) eq_refl (λ _, eq_refl)).
Defined.

Lemma ingress_loop_calls (q : list inbound) :
  ∃ cs, (ingress_loop q).2 = c_recv :: cs ∧ c_quiche_conn_send ∉ (ingress_loop q).2.
Proof.
  induction q as [|[d r|errno] q (cs & E & IH)]; cbn [ingress_loop].
  - eexists. split; [done|compute_done].
  - destruct (r =? QUICHE_ERR_DONE)%Z; [eexists; split; [done|compute_done]|].
    destruct (r <? 0)%Z; [eexists; split; [done|compute_done]|].
    destruct (ingress_loop q) as [[r' q'] cs']. cbn [snd] in *.
    eexists. split; [done|]. rewrite !not_elem_of_cons. done.
  - destruct (_ || _); eexists; (split; [done|compute_done]).
Qed.

Lemma egress_loop_calls (q : list outbound) :
  ∃ cs, (egress_loop q).2 = c_quiche_conn_send :: cs ∧ c_recv ∉ (egress_loop q).2.
Proof.
  induction q as [|[d r|code] q (cs & E & IH)]; cbn [egress_loop].
  - eexists. split; [done|compute_done].
  - destruct (r <? 0)%Z; [eexists; split; [done|compute_done]|].
    destruct (egress_loop q) as [[r' q'] cs']. cbn [snd] in *.
    eexists. split; [done|]. rewrite !not_elem_of_cons. done.
  - destruct (_ =? _)%Z; eexists; (split; [done|compute_done]).
Qed.

Lemma poll_loop_calls (evs : list (nat * h3_event)) (recvd : Z) :
  c_quiche_conn_send ∉ (poll_loop evs recvd).2.
Proof.
  revert recvd. induction evs as [|[s ev] evs IH]; intros recvd.
  - compute_done.
  - cbn [poll_loop].
    assert (∀ x cs, c_quiche_conn_send ∉ cs →
              c_quiche_conn_send ∉
                (let '(r, cs') := poll_loop evs x in
                 (r, c_quiche_h3_conn_poll :: cs ++ c_quiche_h3_event_free :: cs')).2)
      as Hstep.
    { intros x cs Hcs. specialize (IH x).
      destruct (poll_loop evs x) as [r cs']. cbn [snd] in *.
      rewrite not_elem_of_cons, not_elem_of_app, not_elem_of_cons. done. }
    destruct ev as [hs|body|closed]; apply Hstep.
    + intros (h & ? & _)%list_elem_of_fmap. done.
    + apply not_elem_of_cons. split; [done|apply not_elem_of_nil].
    + apply not_elem_of_cons. split; [done|apply not_elem_of_nil].
Qed.

Lemma h3_stream_recv_calls (w : world) :
  ∃ rest, calls_of h3_stream_recv w = ingress_calls w ++ rest
          ∧ c_quiche_conn_send ∉ rest.
Proof.
  unfold ingress_calls.
  destruct (ingress_loop_calls (sock_in w)) as (cs0 & _ & Hno).
  assert (∃ rest, trace (after (h3_stream_recv w))
                  = trace w ++ (ingress_loop (sock_in w)).2 ++ rest
                  ∧ c_quiche_conn_send ∉ rest) as (rest & E & Hrest).
  { rewrite h3_stream_recv_run.
    destruct (ingress_loop (sock_in w)) as [[r q] cs]. cbv zeta. cbn [snd] in *.
    destruct (bool_decide (r ≠ CURLE_OK)).
    { exists []. cbn. split; [by rewrite app_nil_r|compute_done]. }
    destruct (direct_read w =? QUICHE_ERR_DONE)%Z.
    { exists [c_quiche_conn_stream_recv 0]. cbn. split; [app_eq|compute_done]. }
    pose proof (poll_loop_calls (pending w) (direct_read w)) as Hp.
    destruct (poll_loop (pending w) (direct_read w)) as [recvd cs'].
    exists (c_quiche_conn_stream_recv 0 :: cs'). cbn [snd] in Hp.
    split; [destruct (h3c w); cbn; app_eq|].
    rewrite not_elem_of_cons. done. }
  exists rest. split; [|done]. by apply calls_of_log.
Qed.

Lemma h3_stream_send_later (w : world) (mem : bytes) :
  h3c w = true →
  calls_of (h3_stream_send mem) w
  = c_quiche_conn_stream_send 0 mem true
    :: (if (stream_send_answer w mem <? 0)%Z then [] else egress_calls w).
Proof.
  intros Hh. apply calls_of_log.
  unfold h3_stream_send, stream_send_answer, egress_calls. run_M. rewrite Hh. run_M.
  unfold quiche_conn_stream_send. run_M.
  destruct (stream_send_rets w) as [|x rets]; run_M.
  - destruct (Z.of_nat (length mem) <? 0)%Z; run_M; [done|].
    unfold flush_egress. run_M.
    destruct (egress_loop (engine_out w)) as [[r q] cs]. run_M.
    destruct (bool_decide (r ≠ CURLE_OK)); run_M; app_eq.
  - destruct (x <? 0)%Z; run_M; [done|].
    unfold flush_egress. run_M.
    destruct (egress_loop (engine_out w)) as [[r q] cs]. run_M.
    destruct (bool_decide (r ≠ CURLE_OK)); run_M; app_eq.
Qed.

Lemma http_request_calls (w : world) (mem : bytes) :
  c_recv ∉ calls_of (http_request mem) w.
Proof.
  assert (∃ cs, trace (after (http_request mem w)) = trace w ++ cs ∧ c_recv ∉ cs)
    as (cs & E & Hcs); [|by rewrite (calls_of_log _ _ _ E)].
  unfold http_request. run_M.
  destruct (translate_headers (ssl w) (malloc_ok w) mem) as [nva|[|]| |];
    run_M; unfold malloc, free; run_M.
  - destruct (malloc_ok w); run_M; unfold size_warning;
      destruct (MAX_ACC <? cumulative_length nva)%Z; run_M;
      unfold submit; run_M; destruct (is_upload (httpreq w)); run_M;
      try (destruct (bool_decide (infilesize w ≠ (-1)%Z)); run_M);
      unfold quiche_h3_send_request, free; run_M;
      try (destruct (send_request_ret w <? 0)%Z; run_M);
      rewrite <- ?app_assoc; cbn [app]; (eexists; split; [reflexivity|]);
      rewrite ?not_elem_of_cons; repeat split; try done; apply not_elem_of_nil.
  - destruct (malloc_ok w); run_M; rewrite <- ?app_assoc;
      (eexists; split; [reflexivity|compute_done]).
  - rewrite <- ?app_assoc. eexists; split; [reflexivity|compute_done].
  - destruct (malloc_ok w); run_M; rewrite <- ?app_assoc;
      (eexists; split; [reflexivity|compute_done]).
  - destruct (malloc_ok w); run_M; rewrite <- ?app_assoc;
      (eexists; split; [reflexivity|compute_done]).
Qed.

Lemma h3_stream_send_first (w : world) (mem : bytes) :
  h3c w = false →
  calls_of (h3_stream_send mem) w = calls_of (http_request mem) w.
Proof.
  intros Hh. unfold calls_of. f_equal. f_equal.
  unfold h3_stream_send. run_M. rewrite Hh. run_M.
  destruct (http_request mem w) as [r w'|f w']; [|done].
  by destruct (bool_decide (r ≠ CURLE_OK)).
Qed.

(** C7, as amended: every [h3_stream_recv] runs the ingress pump before
    its main work, and no egress pump; every [h3_stream_send] on an
    existing HTTP/3 context writes to the stream and, when the write
    succeeds, runs the egress pump after it; no [h3_stream_send] runs the
    ingress pump. *)
Theorem C7_pumps_of_recv_and_send (w : world) (mem : bytes) :
  (∃ cs rest,
     ingress_calls w = c_recv :: cs
     ∧ calls_of h3_stream_recv w = ingress_calls w ++ rest
     ∧ c_quiche_conn_send ∉ calls_of h3_stream_recv w)
  ∧ (h3c w = true → (0 ≤ stream_send_answer w mem)%Z →
     ∃ cs,
       egress_calls w = c_quiche_conn_send :: cs
       ∧ calls_of (h3_stream_send mem) w
         = c_quiche_conn_stream_send 0 mem true :: egress_calls w)
  ∧ c_recv ∉ calls_of (h3_stream_send mem) w.
Proof.
  split; [|split].
  - destruct (ingress_loop_calls (sock_in w)) as (cs & E & Hno).
    destruct (h3_stream_recv_calls w) as (rest & E' & Hrest).
    exists cs, rest. split; [done|]. split; [done|].
    rewrite E', not_elem_of_app. done.
  - intros Hh Hs. destruct (egress_loop_calls (engine_out w)) as (cs & E & _).
    exists cs. split; [done|]. rewrite h3_stream_send_later by done.
    by destruct (Z.ltb_spec (stream_send_answer w mem) 0); [lia|].
  - destruct (h3c w) eqn:Hh.
    + rewrite h3_stream_send_later by done.
      destruct (egress_loop_calls (engine_out w)) as (cs & _ & Hno).
      apply not_elem_of_cons. split; [done|].
      destruct (_ <? _)%Z; [apply not_elem_of_nil|done].
    + rewrite h3_stream_send_first by done. apply http_request_calls.
Qed.

Lemma C7_witness :
  ∃ cs,
    egress_calls an_established_world = c_quiche_conn_send :: cs
    ∧ calls_of (h3_stream_send (str "body")) an_established_world
      = c_quiche_conn_stream_send 0 (str "body") true
        :: egress_calls an_established_world.
Proof.
  apply (proj1 (proj2 (C7_pumps_of_recv_and_send an_established_world (str "body")))).
  - reflexivity.
  - vm_compute. discriminate.
Defined.

(** C7 as stated fails: on an established connection with an outgoing
    packet waiting, a [h3_stream_recv] ends without a call of
    [quiche_conn_send], that is without an egress pump after its work, and
    a [h3_stream_send] makes no [recv], that is runs no ingress pump before
    its work. *)
Lemma C7_counterexample :
  h3c an_established_world = true
  ∧ calls_of h3_stream_recv an_established_world
    = [ c_recv; c_quiche_conn_recv (str "abc"); c_recv;
        c_quiche_conn_stream_recv 0;
        c_quiche_h3_conn_poll; c_quiche_h3_recv_body 0; c_quiche_h3_event_free;
        c_quiche_h3_conn_poll; c_quiche_conn_close; c_quiche_h3_event_free;
        c_quiche_h3_conn_poll ]
  ∧ (c_quiche_conn_send ∉ calls_of h3_stream_recv an_established_world)
  ∧ calls_of (h3_stream_send (str "body")) an_established_world
    = [ c_quiche_conn_stream_send 0 (str "body") true;
        c_quiche_conn_send; c_send (str "xyz"); c_quiche_conn_send ]
  ∧ (c_recv ∉ calls_of (h3_stream_send (str "body")) an_established_world).
Proof.
  split; [reflexivity|]. split; [by vm_compute|]. split; [compute_done|].
  split; [by vm_compute|compute_done].
Qed.

(** C10: every [h3_stream_send] on an existing HTTP/3 context hands the
    bytes to [quiche_conn_stream_send] on stream 0 with the fin flag set;
    it is the first call it makes and its only stream write. *)
Theorem C10_body_write_sets_fin (w : world) (mem : bytes) :
  h3c w = true →
  ∃ rest,
    calls_of (h3_stream_send mem) w
    = c_quiche_conn_stream_send 0 mem true :: rest
    ∧ Forall (λ c, ∀ id d fin,
                c = c_quiche_conn_stream_send id d fin →
                id = 0%Z ∧ d = mem ∧ fin = true)
        (calls_of (h3_stream_send mem) w).
Proof.
  intros Hh. rewrite h3_stream_send_later by done.
  eexists. split; [done|].
  constructor; [by intros id d fin [= <- <- <-]|].
  destruct (_ <? _)%Z; [constructor|].
  unfold egress_calls. generalize (engine_out w). intros q.
  induction q as [|[d r|code] q IH]; cbn [egress_loop].
  - repeat constructor; done.
  - destruct (r <? 0)%Z; [repeat constructor; done|].
    destruct (egress_loop q) as [[r' q'] cs']. cbn [snd] in *.
    repeat constructor; done.
  - destruct (_ =? _)%Z; repeat constructor; done.
Qed.

Lemma C10_witness :
  ∃ rest,
    calls_of (h3_stream_send (str "body")) an_established_world
    = c_quiche_conn_stream_send 0 (str "body") true :: rest
    ∧ Forall (λ c, ∀ id d fin,
                c = c_quiche_conn_stream_send id d fin →
                id = 0%Z ∧ d = str "body" ∧ fin = true)
        (calls_of (h3_stream_send (str "body")) an_established_world).
Proof.
  apply (C10_body_write_sets_fin an_established_world (str "body")).
  reflexivity.
Defined.

(** ** The translation stays inside the buffer *)

Lemma memchr_from_Some (s : bytes) (c : ascii) (n p q : nat) :
  memchr_from s c n p = Some q →
  ∃ l rest, s = l ++ c :: rest ∧ (c ∉ l) ∧ q = p + length l.
Proof.
  revert n p. induction s as [|a s IH]; intros [|n] p E; simpl in E; try done.
  destruct (Ascii.eqb_spec a c) as [->|Hne].
  - injection E as <-. exists [], s. split; [done|].
    split; [apply not_elem_of_nil|simpl; lia].
  - destruct (IH _ _ E) as (l & rest & -> & Hl & ->).
    exists (a :: l), rest. split; [done|].
    split; [by apply not_elem_of_cons|simpl; lia].
Qed.

Lemma crlf_pairs_cons2 (a b : ascii) (t : bytes) :
  crlf_pairs (a :: b :: t)
  = if Ascii.eqb b LF && Ascii.eqb a CR then S (crlf_pairs t)
    else crlf_pairs (b :: t).
Proof. done. Qed.

Lemma crlf_pairs_cons_le (a : ascii) (s : bytes) :
  crlf_pairs (a :: s) ≤ S (crlf_pairs s).
Proof.
  destruct s as [|b t]; [simpl; lia|]. rewrite crlf_pairs_cons2.
  destruct (Ascii.eqb_spec b LF) as [->|_]; cbn [andb]; [|lia].
  destruct (Ascii.eqb a CR); [|lia].
  pose proof (crlf_pairs_skip [LF] t ltac:(compute_done)) as Hs.
  cbn [app] in Hs. rewrite Hs. lia.
Qed.

Lemma crlf_pairs_cons2_le (a b : ascii) (s : bytes) :
  crlf_pairs (a :: b :: s) ≤ S (crlf_pairs s).
Proof.
  rewrite crlf_pairs_cons2. destruct (_ && _); [lia|].
  apply (crlf_pairs_cons_le b s).
Qed.

Lemma crlf_pairs_length (s : bytes) : 1 ≤ crlf_pairs s → 2 ≤ length s.
Proof. destruct s as [|a [|b s]]; simpl; lia. Qed.

Lemma header_step_next (mem : bytes) (i le a le' a' : nat) (nva nva' : slots) :
  header_step mem i le a nva = StepNext le' a' nva' →
  ∃ l rest x,
    drop (le + 2) mem = l ++ CR :: rest ∧ (CR ∉ l) ∧ le' = le + 2 + length l
    ∧ nva' = <[i := Some x]> nva.
Proof.
  unfold header_step. cbv zeta.
  destruct (_ <? _); [done|].
  destruct (memchr mem (le + 2) CR (length mem - (le + 2))) as [q|] eqn:E; [|done].
  destruct (_ =? _); [done|]. destruct (is_blank _); [done|].
  destruct (_ || _); [done|]. intros [= <- <- <-].
  apply memchr_from_Some in E as (l & rest & E & Hl & ->).
  by eexists l, rest, _.
Qed.

Lemma header_loop_in_bounds (mem : bytes) (todo i le a : nat) (nva : slots) :
  todo = 0 ∨ todo + 2 ≤ crlf_pairs (drop le mem) →
  header_loop mem todo i le a nva ≠ LoopWild.
Proof.
  revert i le a nva. induction todo as [|todo IH]; intros i le a nva H; [done|].
  destruct H as [?|H]; [done|]. cbn [header_loop].
  assert (le + 2 ≤ length mem) as Hlen.
  { assert (2 ≤ length (drop le mem)) as H2 by (apply crlf_pairs_length; lia).
    rewrite length_drop in H2. lia. }
  destruct (header_step mem i le a nva) as [le' a' nva'| |] eqn:E; [|done|].
  - apply IH. right.
    apply header_step_next in E as (l & rest & x & Ed & Hl & -> & _).
    assert (drop le mem
            = byte_at mem le :: byte_at mem (S le) :: drop (le + 2) mem) as E2.
    { rewrite (drop_byte_at mem le), (drop_byte_at mem (S le)) by lia.
      by replace (S (S le)) with (le + 2) by lia. }
    rewrite E2 in H.
    pose proof (crlf_pairs_cons2_le (byte_at mem le) (byte_at mem (S le))
                  (drop (le + 2) mem)) as Hle.
    assert (crlf_pairs (drop (le + 2) mem) = crlf_pairs (CR :: rest)) as Hs
      by (rewrite Ed; by apply crlf_pairs_skip).
    rewrite <- drop_drop, Ed, drop_app_length. lia.
  - unfold header_step in E. cbv zeta in E.
    destruct (Nat.ltb_spec (length mem) (le + 2)); [lia|].
    destruct (memchr _ _ _ _); [|done].
    destruct (_ =? _); [done|]. destruct (is_blank _); [done|].
    by destruct (_ || _).
Qed.

Lemma header_loop_slots (mem : bytes) (todo i le a : nat)
    (done_ : list quiche_h3_header) (a' : nat) (nva' : slots) :
  length done_ = i →
  header_loop mem todo i le a ((Some <$> done_) ++ replicate todo None)
  = LoopDone a' nva' →
  ∃ all, nva' = Some <$> all.
Proof.
  revert i le a done_. induction todo as [|todo IH]; intros i le a done_ Hi E.
  - cbn in E. injection E as <- <-. exists done_. by rewrite app_nil_r.
  - cbn [header_loop] in E.
    destruct (header_step _ _ _ _ _) as [le1 a1 nva1| |] eqn:Es; [|done|done].
    apply header_step_next in Es as (l & rest & x & _ & _ & _ & ->).
    apply (IH (i + 1) le1 a1 (done_ ++ [x])); [len_lia|].
    rewrite <- E. f_equal. cbn [replicate].
    rewrite insert_app_r_alt by (rewrite length_fmap; lia).
    rewrite length_fmap, Hi, Nat.sub_diag. cbn [insert list_insert].
    rewrite fmap_app. app_eq.
Qed.

(** Whatever the buffer, the translation neither lets the unsigned length
    of its [memchr] wrap nor reads a slot of the array that it has not
    written. *)
Lemma translate_headers_in_bounds (ssl malloc_ok : bool) (mem : bytes) :
  translate_headers ssl malloc_ok mem ≠ Wild.
Proof.
  unfold translate_headers. cbv zeta. rewrite count_headers_total.
  destruct (Nat.ltb_spec (crlf_pairs mem) 2) as [?|Hc]; [done|].
  destruct malloc_ok; [|done]. cbn [negb].
  destruct (memchr mem 0 CR (length mem)) as [le|] eqn:E; [|done].
  destruct (memchr mem 0 SP le) as [e|]; [|done].
  destruct (e =? 0); [done|].
  destruct (rscan_space _ _ _) as [e2|]; [|done].
  destruct (e2 =? e + 1); [done|].
  unfold memchr in E. rewrite drop_0 in E.
  apply memchr_from_Some in E as (l & rest & Hmem & Hl & Hle). simpl in Hle.
  replace (crlf_pairs mem + 1) with (S (S (S (crlf_pairs mem - 2)))) by lia.
  cbn [replicate insert list_insert].
  replace (S (S (S (crlf_pairs mem - 2))) - 3) with (crlf_pairs mem - 2) by lia.
  destruct (header_loop _ _ _ _ _ _) as [a' nva'| |] eqn:El; [|done|].
  - apply (header_loop_slots mem _ 3 le 0
             [mk_header (str ":method") (sub mem 0 e);
              mk_header (str ":path") (sub mem (e + 1) (e2 - (e + 1)));
              mk_header (str ":scheme") (if ssl then str "https" else str "http")])
      in El as [all ->]; [|done].
    by rewrite move_authority_fmap, initialised_Some.
  - exfalso. revert El. apply header_loop_in_bounds. right.
    assert (crlf_pairs mem = crlf_pairs (CR :: rest)) as Hk
      by (rewrite Hmem; by apply crlf_pairs_skip).
    assert (drop le mem = CR :: rest) as ->
      by (subst le; rewrite Hmem; apply drop_app_length).
    lia.
Qed.

(** ** Further examples *)

Example one_byte_over_warns :
  exact_length (in_source_order true (str "GET") (long_path ++ ["b"%char]) [])
  = 60001%Z
  ∧ c_infof_size_warning ∈ calls_of (http_request block_60001) a_get_world.
Proof.
  assert (exact_length
            (in_source_order true (str "GET") (long_path ++ ["b"%char]) [])
          = 60001%Z) as Hlen by (vm_compute; reflexivity).
  split; [exact Hlen|].
  assert (wf_request_line (str "GET") (long_path ++ ["b"%char]) (str "HTTP/1.1"))
    as Hwf by (split; compute_done).
  destruct (http_request_translated a_get_world block_60001
              (in_source_order true (str "GET") (long_path ++ ["b"%char]) []))
    as [-> _].
  - exact (translate_wf true (str "GET") _ (str "HTTP/1.1") [] Hwf
             (Forall_nil_2 _)).
  - rewrite cumulative_length_exact by (rewrite Hlen; reflexivity).
    rewrite Hlen. change (MAX_ACC <? 60001)%Z with true. cbv iota.
    rewrite !elem_of_app, !elem_of_cons. tauto.
Qed.

Example request_line_without_space_fails :
  returned (http_request (str "GET" ++ CRLF ++ CRLF) a_get_world)
  = Some CURLE_SEND_ERROR
  ∧ calls_of (http_request (str "GET" ++ CRLF ++ CRLF)) a_get_world
    = [c_quiche_h3_config_new; c_quiche_h3_conn_new_with_transport;
       c_malloc; c_free].
Proof. split; by vm_compute. Qed.

Example first_send_returns_len_without_code :
  returned (h3_stream_send (example_block ++ CRLF) a_get_world)
  = Some (60%Z, None).
Proof. by vm_compute. Qed.

(** ** Further properties of the request driver *)

(** Which outcome goes with which answer of [malloc]. *)
Lemma translate_outcomes (ssl malloc_ok : bool) (mem : bytes) :
  match translate_headers ssl malloc_ok mem with
  | Translated _ | GotoFail true => malloc_ok = true
  | OutOfMemory => malloc_ok = false
  | GotoFail false => True
  | Wild => False
  end.
Proof.
  pose proof (translate_headers_in_bounds ssl malloc_ok mem) as Hw.
  destruct (translate_headers ssl malloc_ok mem) as [nva|[|]| |] eqn:E;
    try done.
  - by apply translated_needs_malloc in E.
  - revert E. unfold translate_headers. cbv zeta.
    destruct (_ <? 2); [done|]. by destruct malloc_ok.
  - revert E. unfold translate_headers. cbv zeta.
    destruct (_ <? 2); [done|]. destruct malloc_ok; [|done]. cbn [negb].
    repeat (match goal with
            | |- context [match ?x with _ => _ end] => destruct x
            end; try done).
Qed.

Ltac run_request :=
  match goal with
  | |- context [http_request ?mem ?w] =>
      pose proof (translate_outcomes (ssl w) (malloc_ok w) mem) as Houtcome
  end;
  unfold http_request; run_M;
  destruct (translate_headers _ _ _) as [?nva|[|]| |] eqn:?Et;
  run_M; unfold malloc, free; run_M;
  destruct (malloc_ok _) eqn:?Hmalloc; try done; run_M;
  unfold size_warning;
  try (destruct (MAX_ACC <? cumulative_length _)%Z; run_M);
  unfold submit; run_M;
  try (destruct (is_upload (httpreq _)) eqn:?Hup; run_M);
  try (destruct (bool_decide (infilesize _ ≠ (-1)%Z)); run_M);
  unfold quiche_h3_send_request, free; run_M;
  try (destruct (send_request_ret _ <? 0)%Z eqn:?Hret; run_M).

(** X1: whatever the buffer and the answers of the peer, [http_request]
    returns CURLE_OK, CURLE_SEND_ERROR or CURLE_OUT_OF_MEMORY, or, for a
    method with a body only, stops at the read of the unassigned stream
    id. In particular the header loop never starts a line beyond the end
    of the buffer, so the unsigned length it hands to [memchr] does not
    wrap, and the array that is rotated and handed on has no slot left
    unwritten. *)
Theorem http_request_stays_in_bounds (w : world) (mem : bytes) :
  translate_headers (ssl w) (malloc_ok w) mem ≠ Wild
  ∧ match http_request mem w with
    | Returns result _ =>
        result = CURLE_OK ∨ result = CURLE_SEND_ERROR
        ∨ result = CURLE_OUT_OF_MEMORY
    | Faults f _ =>
        f = ReadsUninitialised "stream3_id" ∧ is_upload (httpreq w) = true
    end.
Proof.
  split.
  - pose proof (translate_outcomes (ssl w) (malloc_ok w) mem) as H.
    by destruct (translate_headers (ssl w) (malloc_ok w) mem).
  - run_request; auto.
Qed.

(** X2: whatever the buffer and the answers of the peer, [http_request]
    ends with as many live allocations as it started with: the array is
    freed on the fail exit, after the submission, and before the read of
    the unassigned stream id; a failed [malloc] leaves nothing to free. *)
Theorem http_request_frees_what_it_allocates (w : world) (mem : bytes) :
  heap_live (after (http_request mem w)) = heap_live w.
Proof. run_request; reflexivity. Qed.

(** [http_request] stores the engine's answer in [qs->h3c] before it looks
    at the header block: on every path the context exists afterwards
    exactly when the engine has created it. *)
Lemma http_request_creates_context (w : world) (mem : bytes) :
  h3c (after (http_request mem w)) = h3_conn_new_ok w.
Proof. run_request; reflexivity. Qed.

Lemma http_request_starts (w : world) (mem : bytes) :
  ∃ rest,
    calls_of (http_request mem) w
    = c_quiche_h3_config_new :: c_quiche_h3_conn_new_with_transport :: rest.
Proof.
  assert (∃ rest, trace (after (http_request mem w))
                  = trace w ++ c_quiche_h3_config_new
                      :: c_quiche_h3_conn_new_with_transport :: rest)
    as [rest E]; [|exists rest; by apply calls_of_log].
  run_request; rewrite <- ?app_assoc; by eexists.
Qed.

Lemma http_request_trace (w : world) (mem : bytes) :
  ∃ cs, trace (after (http_request mem w)) = trace w ++ cs.
Proof.
  run_request; rewrite <- ?app_assoc; by eexists.
Qed.

(** X3: a buffer with fewer than two CRLF pairs (the empty buffer, a lone
    request line) is refused before anything is allocated: the result is
    CURLE_SEND_ERROR and [malloc] is not called. *)
Theorem too_few_lines_fail_before_malloc (w : world) (mem : bytes) :
  crlf_pairs mem < 2 →
  returned (http_request mem w) = Some CURLE_SEND_ERROR
  ∧ calls_of (http_request mem) w
    = [c_quiche_h3_config_new; c_quiche_h3_conn_new_with_transport].
Proof.
  intros Hc.
  assert (translate_headers (ssl w) (malloc_ok w) mem = GotoFail false) as E.
  { unfold translate_headers. cbv zeta. rewrite count_headers_total.
    by destruct (Nat.ltb_spec (crlf_pairs mem) 2); [|lia]. }
  split.
  - unfold http_request. run_M. by rewrite E.
  - apply calls_of_log. unfold http_request. run_M. rewrite E. run_M. app_eq.
Qed.

Lemma too_few_lines_witness :
  returned (http_request (str "GET / HTTP/1.1" ++ CRLF) a_get_world)
  = Some CURLE_SEND_ERROR
  ∧ calls_of (http_request (str "GET / HTTP/1.1" ++ CRLF)) a_get_world
    = [c_quiche_h3_config_new; c_quiche_h3_conn_new_with_transport].
Proof.
  apply (too_few_lines_fail_before_malloc a_get_world
           (str "GET / HTTP/1.1" ++ CRLF)).
  vm_compute. lia.
Defined.

(** X4: when the buffer has at least two CRLF pairs and [malloc] fails,
    [http_request] returns CURLE_OUT_OF_MEMORY at once: nothing is parsed,
    freed or submitted. *)
Theorem failed_malloc_is_out_of_memory (w : world) (mem : bytes) :
  2 ≤ crlf_pairs mem → malloc_ok w = false →
  returned (http_request mem w) = Some CURLE_OUT_OF_MEMORY
  ∧ calls_of (http_request mem) w
    = [c_quiche_h3_config_new; c_quiche_h3_conn_new_with_transport; c_malloc].
Proof.
  intros Hc Hm.
  assert (translate_headers (ssl w) (malloc_ok w) mem = OutOfMemory) as E.
  { unfold translate_headers. cbv zeta. rewrite count_headers_total, Hm.
    by destruct (Nat.ltb_spec (crlf_pairs mem) 2); [lia|]. }
  split.
  - unfold http_request. run_M. rewrite E. run_M. unfold malloc. run_M.
    by rewrite Hm.
  - apply calls_of_log. unfold http_request. run_M. rewrite E. run_M.
    unfold malloc. run_M. rewrite Hm. run_M. app_eq.
Qed.

Lemma failed_malloc_witness :
  returned (http_request (example_block ++ CRLF) a_world_without_memory)
  = Some CURLE_OUT_OF_MEMORY
  ∧ calls_of (http_request (example_block ++ CRLF)) a_world_without_memory
    = [c_quiche_h3_config_new; c_quiche_h3_conn_new_with_transport; c_malloc].
Proof.
  apply (failed_malloc_is_out_of_memory a_world_without_memory
           (example_block ++ CRLF)).
  - vm_compute. lia.
  - reflexivity.
Defined.

(** X5: for a method without body and a block that translates,
    [http_request] submits the list once, with the fin flag; a negative
    answer of the engine gives CURLE_SEND_ERROR and leaves the stream's id
    as it was, any other answer gives CURLE_OK and is stored as the
    stream's id. *)
Theorem submission_result_and_stream_id (w : world) (mem : bytes)
    (nva : list quiche_h3_header) :
  is_upload (httpreq w) = false →
  translate_headers (ssl w) (malloc_ok w) mem = Translated nva →
  filter (λ c, is_send_request c = true) (calls_of (http_request mem) w)
  = [c_quiche_h3_send_request nva true]
  ∧ ((send_request_ret w < 0)%Z →
     returned (http_request mem w) = Some CURLE_SEND_ERROR
     ∧ stream3_id (after (http_request mem w)) = stream3_id w)
  ∧ ((0 ≤ send_request_ret w)%Z →
     returned (http_request mem w) = Some CURLE_OK
     ∧ stream3_id (after (http_request mem w)) = send_request_ret w).
Proof.
  intros Hu E. destruct (http_request_translated w mem nva E) as [-> Hr].
  rewrite Hu. split; [by destruct (MAX_ACC <? cumulative_length nva)%Z|].
  pose proof (translated_needs_malloc _ _ _ _ E) as Hm.
  assert (stream3_id (after (http_request mem w))
          = if (send_request_ret w <? 0)%Z then stream3_id w
            else send_request_ret w) as Hid.
  { unfold http_request. run_M. rewrite E. run_M. unfold malloc. run_M.
    rewrite Hm. run_M. unfold size_warning.
    destruct (MAX_ACC <? cumulative_length nva)%Z; run_M;
      unfold submit; run_M; rewrite Hu; run_M;
      unfold quiche_h3_send_request, free; run_M;
      by destruct (send_request_ret w <? 0)%Z. }
  rewrite (Hr Hu), Hid.
  split; intros H; destruct (Z.ltb_spec (send_request_ret w) 0); done || lia.
Qed.

Lemma submission_witness :
  filter (λ c, is_send_request c = true)
    (calls_of (http_request (example_block ++ CRLF)) a_get_world)
  = [c_quiche_h3_send_request five_entries true]
  ∧ ((send_request_ret a_get_world < 0)%Z →
     returned (http_request (example_block ++ CRLF) a_get_world)
     = Some CURLE_SEND_ERROR
     ∧ stream3_id (after (http_request (example_block ++ CRLF) a_get_world))
       = stream3_id a_get_world)
  ∧ ((0 ≤ send_request_ret a_get_world)%Z →
     returned (http_request (example_block ++ CRLF) a_get_world)
     = Some CURLE_OK
     ∧ stream3_id (after (http_request (example_block ++ CRLF) a_get_world))
       = send_request_ret a_get_world).
Proof.
  apply (submission_result_and_stream_id a_get_world (example_block ++ CRLF)
           five_entries).
  - reflexivity.
  - vm_compute. reflexivity.
Defined.

Lemma after_first_send (w : world) (mem : bytes) :
  h3c w = false →
  after (h3_stream_send mem w) = after (http_request mem w).
Proof.
  intros Hh. unfold h3_stream_send. run_M. rewrite Hh. run_M.
  destruct (http_request mem w) as [r w'|f w']; [|done].
  by destruct (bool_decide (r ≠ CURLE_OK)).
Qed.

Lemma after_later_send (w : world) (mem : bytes) :
  h3c w = true → h3c (after (h3_stream_send mem w)) = true.
Proof.
  intros Hh. unfold h3_stream_send. run_M. rewrite Hh. run_M.
  unfold quiche_conn_stream_send. run_M.
  destruct (stream_send_rets w) as [|x rets]; run_M;
    (destruct (_ <? 0)%Z; run_M; [done|]);
    unfold flush_egress; run_M;
    destruct (egress_loop (engine_out w)) as [[r q] cs]; run_M;
    by destruct (bool_decide (r ≠ CURLE_OK)).
Qed.

(** X6: after a call of [h3_stream_send] the HTTP/3 context exists exactly
    when it existed before or the engine has created it during the call,
    whether or not the header block was well-formed. With a context the
    next call is a body write: it hands its bytes to
    [quiche_conn_stream_send] on stream 0 with the fin flag and translates
    nothing. Without one (the engine answered NULL, which the source leaves
    unhandled) the next call starts a request again. *)
Theorem next_send_writes_body_once_context_exists (w : world)
    (mem mem' : bytes) :
  h3c (after (h3_stream_send mem w)) = h3c w || h3_conn_new_ok w
  ∧ (h3c w || h3_conn_new_ok w = true →
     ∃ rest,
       calls_of (h3_stream_send mem') (after (h3_stream_send mem w))
       = c_quiche_conn_stream_send 0 mem' true :: rest)
  ∧ (h3c w || h3_conn_new_ok w = false →
     ∃ rest,
       calls_of (h3_stream_send mem') (after (h3_stream_send mem w))
       = c_quiche_h3_config_new :: c_quiche_h3_conn_new_with_transport
         :: rest).
Proof.
  assert (h3c (after (h3_stream_send mem w)) = h3c w || h3_conn_new_ok w)
    as Hh.
  { destruct (h3c w) eqn:E.
    - by apply after_later_send.
    - rewrite after_first_send by done. apply http_request_creates_context. }
  split; [done|]. rewrite <- Hh. split; intros Hc.
  - rewrite h3_stream_send_later by done. by eexists.
  - rewrite h3_stream_send_first by done. apply http_request_starts.
Qed.

(** ** Further properties of the pumps *)

Lemma egress_loop_written (ps : list (bytes * Z)) (q : list outbound) :
  written ps →
  egress_loop (packets ps ++ q)
  = (let '(r, q', cs) := egress_loop q in (r, q', flushed ps ++ cs)).
Proof.
  induction 1 as [|[d r] ps Hr _ IH]; simpl in *.
  - by destruct (egress_loop q) as [[? ?] ?].
  - destruct (Z.ltb_spec r 0) as [?|_]; [lia|].
    fold (packets ps). rewrite IH.
    by destruct (egress_loop q) as [[? ?] ?].
Qed.

Lemma flush_egress_after (w : world) (ps : list (bytes * Z))
    (q q' : list outbound) (r : CURLcode) (cs : list call) :
  written ps → engine_out w = packets ps ++ q → egress_loop q = (r, q', cs) →
  returned (flush_egress w) = Some r
  ∧ calls_of flush_egress w = flushed ps ++ cs
  ∧ engine_out (after (flush_egress w)) = q'.
Proof.
  intros Ha Hw Hq.
  assert (flush_egress w = Returns r (log (flushed ps ++ cs) (set_engine_out q' w)))
    as E.
  { unfold flush_egress. by rewrite Hw, egress_loop_written, Hq. }
  split; [by rewrite E|]. split; [|by rewrite E].
  apply calls_of_log. by rewrite E.
Qed.

Lemma sent_packets_flushed (ps : list (bytes * Z)) (cs : list call) :
  sent_packets (flushed ps ++ cs) = ps.*1 ++ sent_packets cs.
Proof.
  induction ps as [|[d r] ps IH]; [done|].
  unfold sent_packets, flushed in *. cbn in *. f_equal. exact IH.
Qed.

(** X7: [flush_egress] writes every packet the engine produces to the
    socket, in order, until the engine reports QUICHE_ERR_DONE, and then
    returns CURLE_OK; a negative answer of [send], and any other negative
    answer of the engine, end it with CURLE_SEND_ERROR at once, the
    packets not yet produced staying with the engine. *)
Theorem egress_flushes_until_done (w : world) (ps : list (bytes * Z))
    (rest : list outbound) :
  written ps →
  (engine_out w = packets ps →
   returned (flush_egress w) = Some CURLE_OK
   ∧ calls_of flush_egress w = flushed ps ++ [c_quiche_conn_send]
   ∧ sent_packets (calls_of flush_egress w) = ps.*1)
  ∧ (∀ d r, (r < 0)%Z → engine_out w = packets ps ++ Packet d r :: rest →
     returned (flush_egress w) = Some CURLE_SEND_ERROR
     ∧ calls_of flush_egress w = flushed ps ++ [c_quiche_conn_send; c_send d]
     ∧ engine_out (after (flush_egress w)) = rest)
  ∧ (∀ code, Z.neg code ≠ QUICHE_ERR_DONE →
     engine_out w = packets ps ++ NoPacket code :: rest →
     returned (flush_egress w) = Some CURLE_SEND_ERROR
     ∧ calls_of flush_egress w = flushed ps ++ [c_quiche_conn_send]
     ∧ engine_out (after (flush_egress w)) = rest).
Proof.
  intros Ha. split; [|split].
  - intros Hw. rewrite <- (app_nil_r (packets ps)) in Hw.
    destruct (flush_egress_after w ps [] [] CURLE_OK [c_quiche_conn_send]
                Ha Hw eq_refl) as (H1 & H2 & _).
    split; [done|]. split; [done|].
    by rewrite H2, sent_packets_flushed, app_nil_r.
  - intros d r Hr Hw.
    apply (flush_egress_after w ps (Packet d r :: rest)); try done.
    simpl. by destruct (Z.ltb_spec r 0); [|lia].
  - intros code Hc Hw.
    apply (flush_egress_after w ps (NoPacket code :: rest)); try done.
    cbn [egress_loop]. by destruct (Z.eqb_spec (Z.neg code) QUICHE_ERR_DONE).
Qed.

Lemma egress_flushes_witness :
  returned (flush_egress a_flushing_world) = Some CURLE_OK
  ∧ calls_of flush_egress a_flushing_world
    = flushed two_packets ++ [c_quiche_conn_send]
  ∧ sent_packets (calls_of flush_egress a_flushing_world)
    = [str "initial"; str "handshake"].
Proof.
  assert (written two_packets) as Ha by (repeat constructor; simpl; lia).
  exact (proj1 (egress_flushes_until_done a_flushing_world two_packets [] Ha)
           eq_refl).
Defined.

Lemma ingress_loop_prefix (q : list inbound) :
  ∃ consumed,
    q = consumed ++ (ingress_loop q).1.2
    ∧ fed_datagrams (ingress_loop q).2 = datagrams_of consumed
    ∧ ((ingress_loop q).1.1 = CURLE_OK ∨ (ingress_loop q).1.1 = CURLE_RECV_ERROR).
Proof.
  induction q as [|[d r|errno] q (consumed & E & Hf & Hr)]; cbn [ingress_loop].
  - exists []. repeat split; auto.
  - destruct (r =? QUICHE_ERR_DONE)%Z;
      [exists [Datagram d r]; repeat split; auto|].
    destruct (r <? 0)%Z; [exists [Datagram d r]; repeat split; auto|].
    destruct (ingress_loop q) as [[r' q'] cs]. cbn [fst snd] in *.
    exists (Datagram d r :: consumed). split; [by rewrite E at 1|].
    split; [|done]. unfold fed_datagrams, datagrams_of in *. cbn. by f_equal.
  - destruct (_ || _); exists [RecvError errno]; repeat split; auto.
Qed.

Lemma egress_loop_prefix (q : list outbound) :
  ∃ consumed,
    q = consumed ++ (egress_loop q).1.2
    ∧ sent_packets (egress_loop q).2 = packets_of consumed
    ∧ ((egress_loop q).1.1 = CURLE_OK ∨ (egress_loop q).1.1 = CURLE_SEND_ERROR).
Proof.
  induction q as [|[d r|code] q (consumed & E & Hf & Hr)]; cbn [egress_loop].
  - exists []. repeat split; auto.
  - destruct (r <? 0)%Z; [exists [Packet d r]; repeat split; auto|].
    destruct (egress_loop q) as [[r' q'] cs]. cbn [fst snd] in *.
    exists (Packet d r :: consumed). split; [by rewrite E at 1|].
    split; [|done]. unfold sent_packets, packets_of in *. cbn. by f_equal.
  - destruct (_ =? _)%Z; exists [NoPacket code]; repeat split; auto.
Qed.

(** X8: whatever the socket and the engine answer, each pump passes on
    exactly what it took, in order: [process_ingress] feeds the engine the
    datagrams of the answers it consumed from the socket and leaves the
    others queued, [flush_egress] hands the socket the packets of the
    answers it consumed from the engine; their results are CURLE_OK or
    CURLE_RECV_ERROR, respectively CURLE_SEND_ERROR, and nothing else. *)
Theorem pumps_pass_on_what_they_take (w : world) :
  (∃ consumed,
     sock_in w = consumed ++ sock_in (after (process_ingress w))
     ∧ fed_datagrams (calls_of process_ingress w) = datagrams_of consumed
     ∧ (returned (process_ingress w) = Some CURLE_OK
        ∨ returned (process_ingress w) = Some CURLE_RECV_ERROR))
  ∧ (∃ consumed,
       engine_out w = consumed ++ engine_out (after (flush_egress w))
       ∧ sent_packets (calls_of flush_egress w) = packets_of consumed
       ∧ (returned (flush_egress w) = Some CURLE_OK
          ∨ returned (flush_egress w) = Some CURLE_SEND_ERROR)).
Proof.
  split.
  - destruct (ingress_loop_prefix (sock_in w)) as (consumed & E & Hf & Hr).
    exists consumed.
    assert (process_ingress w
            = Returns (ingress_loop (sock_in w)).1.1
                (log (ingress_loop (sock_in w)).2
                   (set_sock_in (ingress_loop (sock_in w)).1.2 w))) as Hrun.
    { unfold process_ingress. by destruct (ingress_loop (sock_in w)) as [[? ?] ?]. }
    rewrite (calls_of_log process_ingress w (ingress_loop (sock_in w)).2)
      by (by rewrite Hrun).
    rewrite Hrun. cbn [after returned sock_in log set_sock_in].
    split; [done|]. split; [done|]. by destruct Hr as [-> | ->]; [left|right].
  - destruct (egress_loop_prefix (engine_out w)) as (consumed & E & Hf & Hr).
    exists consumed.
    assert (flush_egress w
            = Returns (egress_loop (engine_out w)).1.1
                (log (egress_loop (engine_out w)).2
                   (set_engine_out (egress_loop (engine_out w)).1.2 w))) as Hrun.
    { unfold flush_egress. by destruct (egress_loop (engine_out w)) as [[? ?] ?]. }
    rewrite (calls_of_log flush_egress w (egress_loop (engine_out w)).2)
      by (by rewrite Hrun).
    rewrite Hrun. cbn [after returned engine_out log set_engine_out].
    split; [done|]. split; [done|]. by destruct Hr as [-> | ->]; [left|right].
Qed.

(** ** Further properties of the event dispatcher and of the send path *)

Lemma process_ingress_result (w : world) :
  process_ingress w
  = Returns (ingress_result w)
      (log (ingress_calls w) (set_sock_in (ingress_loop (sock_in w)).1.2 w)).
Proof.
  unfold process_ingress, ingress_result, ingress_calls.
  by destruct (ingress_loop (sock_in w)) as [[? ?] ?].
Qed.

Lemma flush_egress_result (w : world) :
  flush_egress w
  = Returns (egress_result w)
      (log (egress_calls w) (set_engine_out (egress_loop (engine_out w)).1.2 w)).
Proof.
  unfold flush_egress, egress_result, egress_calls.
  by destruct (egress_loop (engine_out w)) as [[? ?] ?].
Qed.

(** X9: [h3_stream_recv] ends in one of three ways. When the ingress pump
    fails it returns -1 with CURLE_RECV_ERROR and does not touch the
    stream; when the stream read reports QUICHE_ERR_DONE it returns -1
    with CURLE_AGAIN, polls no event and leaves the pending events with the
    engine; otherwise it returns with CURLE_OK. *)
Theorem recv_fails_blocks_or_delivers (w : world) :
  (ingress_result w ≠ CURLE_OK →
   returned (h3_stream_recv w) = Some ((-1)%Z, CURLE_RECV_ERROR)
   ∧ calls_of h3_stream_recv w = ingress_calls w)
  ∧ (ingress_result w = CURLE_OK → direct_read w = QUICHE_ERR_DONE →
     returned (h3_stream_recv w) = Some ((-1)%Z, CURLE_AGAIN)
     ∧ calls_of h3_stream_recv w
       = ingress_calls w ++ [c_quiche_conn_stream_recv 0]
     ∧ h3_events (after (h3_stream_recv w)) = h3_events w)
  ∧ (ingress_result w = CURLE_OK → direct_read w ≠ QUICHE_ERR_DONE →
     ∃ n, returned (h3_stream_recv w) = Some (n, CURLE_OK)).
Proof.
  unfold ingress_result, ingress_calls.
  split; [|split].
  - intros Hr. split; [|apply calls_of_log]; rewrite h3_stream_recv_run;
      destruct (ingress_loop (sock_in w)) as [[r q] cs]; cbv zeta;
      cbn [fst snd] in *; rewrite bool_decide_true by done; done.
  - intros Hr Hd. split; [|split; [apply calls_of_log|]];
      rewrite h3_stream_recv_run;
      destruct (ingress_loop (sock_in w)) as [[r q] cs]; cbv zeta;
      cbn [fst snd] in *; subst r; rewrite bool_decide_false by (by intros ?);
      rewrite Hd; cbn; try done. app_eq.
  - intros Hr Hd. rewrite h3_stream_recv_run.
    destruct (ingress_loop (sock_in w)) as [[r q] cs]. cbv zeta.
    cbn [fst snd] in *. subst r. rewrite bool_decide_false by (by intros ?).
    destruct (Z.eqb_spec (direct_read w) QUICHE_ERR_DONE); [done|].
    destruct (poll_loop _ _) as [cnt cs']. by exists cnt.
Qed.

Lemma recv_blocks_witness :
  returned (h3_stream_recv a_blocked_world) = Some ((-1)%Z, CURLE_AGAIN)
  ∧ calls_of h3_stream_recv a_blocked_world
    = ingress_calls a_blocked_world ++ [c_quiche_conn_stream_recv 0]
  ∧ h3_events (after (h3_stream_recv a_blocked_world))
    = [(0, QUICHE_H3_EVENT_DATA 5)].
Proof.
  exact (proj1 (proj2 (recv_fails_blocks_or_delivers a_blocked_world))
           eq_refl eq_refl).
Defined.

Lemma surfaced_headers_app (a b : list call) :
  surfaced_headers (a ++ b) = surfaced_headers a ++ surfaced_headers b.
Proof. apply omap_app. Qed.

Lemma count_call_app (c : call) (a b : list call) :
  count_call c (a ++ b) = count_call c a + count_call c b.
Proof. unfold count_call. by rewrite filter_app, length_app. Qed.

Lemma surfaced_headers_cb (hs : list quiche_h3_header) :
  surfaced_headers (c_cb_each_header <$> hs) = hs.
Proof. induction hs as [|h hs IH]; [done|]. cbn. by f_equal. Qed.

Lemma count_call_cb (c : call) (hs : list quiche_h3_header) :
  (∀ h, c_cb_each_header h ≠ c) →
  count_call c (c_cb_each_header <$> hs) = 0.
Proof.
  intros Hc. induction hs as [|h hs IH]; [done|].
  unfold count_call in *. cbn [fmap list_fmap]. rewrite filter_cons.
  destruct (decide (c_cb_each_header h = c)) as [E|_]; [by destruct (Hc h)|done].
Qed.

Ltac count_singletons :=
  repeat match goal with
    | |- context [count_call ?c [?x]] =>
        let v := eval vm_compute in (count_call c [x]) in
        change (count_call c [x]) with v
    | |- context [surfaced_headers [?x]] =>
        let v := eval vm_compute in (surfaced_headers [x]) in
        change (surfaced_headers [x]) with v
    end.

Lemma poll_loop_accounts (evs : list (nat * h3_event)) (recvd : Z) :
  surfaced_headers (poll_loop evs recvd).2 = headers_of evs
  ∧ count_call c_quiche_h3_event_free (poll_loop evs recvd).2 = length evs
  ∧ count_call c_quiche_h3_conn_poll (poll_loop evs recvd).2 = S (length evs)
  ∧ count_call c_quiche_conn_close (poll_loop evs recvd).2
    = length (filter (λ e, is_finished e = true) evs).
Proof.
  revert recvd. induction evs as [|[s ev] evs IH]; intros recvd; [done|].
  cbn [poll_loop]. rewrite filter_cons.
  change (headers_of ((s, ev) :: evs))
    with (match ev with QUICHE_H3_EVENT_HEADERS hs => hs | _ => [] end
          ++ headers_of evs).
  destruct ev as [hs|body|closed];
    (match goal with |- context [poll_loop evs ?x] =>
       destruct (IH x) as (IH1 & IH2 & IH3 & IH4);
       destruct (poll_loop evs x) as [r cs'] end;
     cbn [snd] in *;
     match goal with |- context [c_quiche_h3_conn_poll :: ?cs ++ _ :: ?cs2] =>
       change (c_quiche_h3_conn_poll :: cs ++ c_quiche_h3_event_free :: cs2)
         with ([c_quiche_h3_conn_poll] ++ cs ++ [c_quiche_h3_event_free] ++ cs2)
     end;
     rewrite !surfaced_headers_app, !count_call_app, IH1, IH2, IH3, IH4;
     rewrite ?surfaced_headers_cb, ?count_call_cb by done;
     count_singletons;
     destruct (decide _) as [E|E]; try (by vm_compute in E);
     cbn [app length]; repeat split; lia || done).
Qed.

Lemma ingress_loop_accounts (q : list inbound) :
  surfaced_headers (ingress_loop q).2 = []
  ∧ count_call c_quiche_h3_event_free (ingress_loop q).2 = 0
  ∧ count_call c_quiche_h3_conn_poll (ingress_loop q).2 = 0
  ∧ count_call c_quiche_conn_close (ingress_loop q).2 = 0.
Proof.
  induction q as [|[d r|errno] q (I1 & I2 & I3 & I4)]; cbn [ingress_loop].
  - done.
  - destruct (r =? QUICHE_ERR_DONE)%Z; [done|]. destruct (r <? 0)%Z; [done|].
    destruct (ingress_loop q) as [[r' q'] cs]. cbn [snd] in *.
    change (c_recv :: c_quiche_conn_recv d :: cs)
      with ([c_recv] ++ [c_quiche_conn_recv d] ++ cs).
    rewrite !surfaced_headers_app, !count_call_app, I1, I2, I3, I4.
    count_singletons. done.
  - by destruct (_ || _).
Qed.

Lemma h3_stream_recv_delivers (w : world) (n : Z) :
  returned (h3_stream_recv w) = Some (n, CURLE_OK) →
  calls_of h3_stream_recv w
  = ingress_calls w ++ [c_quiche_conn_stream_recv 0]
    ++ (poll_loop (pending w) (direct_read w)).2.
Proof.
  intros H. apply calls_of_log. revert H. rewrite h3_stream_recv_run.
  unfold ingress_calls.
  destruct (ingress_loop (sock_in w)) as [[r q] cs]. cbv zeta. cbn [snd].
  destruct (bool_decide (r ≠ CURLE_OK)); [done|].
  destruct (direct_read w =? QUICHE_ERR_DONE)%Z; [done|].
  destruct (poll_loop _ _) as [cnt cs']. intros _. cbn [snd].
  destruct (h3c w); cbn; app_eq.
Qed.

(** X10: a [h3_stream_recv] that ends with CURLE_OK has handed every
    header of every pending Headers event to [cb_each_header], in order,
    has freed each polled event once, has closed the connection once per
    Finished event, and has polled once more than there were events. *)
Theorem recv_dispatches_every_event (w : world) (n : Z) :
  returned (h3_stream_recv w) = Some (n, CURLE_OK) →
  surfaced_headers (calls_of h3_stream_recv w) = headers_of (pending w)
  ∧ count_call c_quiche_h3_event_free (calls_of h3_stream_recv w)
    = length (pending w)
  ∧ count_call c_quiche_conn_close (calls_of h3_stream_recv w)
    = length (filter (λ e, is_finished e = true) (pending w))
  ∧ count_call c_quiche_h3_conn_poll (calls_of h3_stream_recv w)
    = S (length (pending w)).
Proof.
  intros H. rewrite (h3_stream_recv_delivers w n H).
  destruct (ingress_loop_accounts (sock_in w)) as (I1 & I2 & I3 & I4).
  destruct (poll_loop_accounts (pending w) (direct_read w))
    as (P1 & P2 & P3 & P4).
  unfold ingress_calls.
  rewrite !surfaced_headers_app, !count_call_app, I1, I2, I3, I4, P1, P2, P3, P4.
  count_singletons. done.
Qed.

Lemma recv_dispatches_witness :
  surfaced_headers (calls_of h3_stream_recv a_receiving_world)
  = [mk_header (str ":status") (str "200")]
  ∧ count_call c_quiche_h3_event_free (calls_of h3_stream_recv a_receiving_world)
    = 4
  ∧ count_call c_quiche_conn_close (calls_of h3_stream_recv a_receiving_world)
    = 1
  ∧ count_call c_quiche_h3_conn_poll (calls_of h3_stream_recv a_receiving_world)
    = 5.
Proof.
  exact (recv_dispatches_every_event a_receiving_world 0%Z eq_refl).
Defined.

(** ** Connection setup *)

Lemma Curl_quic_is_connected_run (w : world) (established : bool) :
  Curl_quic_is_connected established w
  = (let w1 := log (ingress_calls w)
                 (set_sock_in (ingress_loop (sock_in w)).1.2 w) in
     if bool_decide (ingress_result w ≠ CURLE_OK)
     then Returns (ingress_result w, false) w1
     else
       let w2 := log (egress_calls w)
                   (set_engine_out (egress_loop (engine_out w)).1.2 w1) in
       if bool_decide (egress_result w ≠ CURLE_OK)
       then Returns (egress_result w, false) w2
       else Returns (CURLE_OK, established) w2).
Proof.
  unfold Curl_quic_is_connected, process_ingress, flush_egress,
    ingress_result, egress_result, ingress_calls, egress_calls.
  run_M. destruct (ingress_loop (sock_in w)) as [[r q] cs]. run_M.
  destruct (bool_decide (r ≠ CURLE_OK)); [done|]. run_M.
  destruct (egress_loop (engine_out w)) as [[r' q'] cs']. run_M.
  by destruct (bool_decide (r' ≠ CURLE_OK)).
Qed.

(** X11: [Curl_quic_is_connected] runs the ingress pump, then the egress
    pump. A failure of the first is returned before the second is run, a
    failure of the second before the engine is asked; only when both
    succeed is the connection switched to the HTTP/3 functions, and then
    exactly when the engine reports the handshake established; the result
    is CURLE_OK in either case. *)
Theorem is_connected_pumps_then_asks (w : world) (established : bool) :
  (ingress_result w ≠ CURLE_OK →
   returned (Curl_quic_is_connected established w)
   = Some (ingress_result w, false)
   ∧ calls_of (Curl_quic_is_connected established) w = ingress_calls w)
  ∧ (ingress_result w = CURLE_OK → egress_result w ≠ CURLE_OK →
     returned (Curl_quic_is_connected established w)
     = Some (egress_result w, false)
     ∧ calls_of (Curl_quic_is_connected established) w
       = ingress_calls w ++ egress_calls w)
  ∧ (ingress_result w = CURLE_OK → egress_result w = CURLE_OK →
     returned (Curl_quic_is_connected established w)
     = Some (CURLE_OK, established)
     ∧ calls_of (Curl_quic_is_connected established) w
       = ingress_calls w ++ egress_calls w).
Proof.
  split; [|split].
  - intros Hr. split; [|apply calls_of_log];
      rewrite Curl_quic_is_connected_run; cbv zeta;
      rewrite bool_decide_true by done; done.
  - intros Hr He. split; [|apply calls_of_log];
      rewrite Curl_quic_is_connected_run; cbv zeta;
      rewrite bool_decide_false by (by rewrite Hr; intros ?);
      rewrite bool_decide_true by done; cbn; try done. app_eq.
  - intros Hr He. split; [|apply calls_of_log];
      rewrite Curl_quic_is_connected_run; cbv zeta;
      rewrite bool_decide_false by (by rewrite Hr; intros ?);
      rewrite bool_decide_false by (by rewrite He; intros ?); cbn; try done.
    app_eq.
Qed.

Lemma is_connected_witness :
  returned (Curl_quic_is_connected true an_established_world)
  = Some (CURLE_OK, true)
  ∧ calls_of (Curl_quic_is_connected true) an_established_world
    = ingress_calls an_established_world ++ egress_calls an_established_world.
Proof.
  exact (proj2 (proj2 (is_connected_pumps_then_asks an_established_world true))
           eq_refl eq_refl).
Defined.

Lemma Curl_quic_connect_run (w : world) (e : connect_answers) :
  Curl_quic_connect e w
  = (if negb (config_new_ok e)
     then Returns CURLE_FAILED_INIT (set_cfg None w) else
     let w1 := set_scid (rand_bytes e) (set_cfg (Some connect_settings) w) in
     if bool_decide (rand_result e ≠ CURLE_OK) then Returns (rand_result e) w1
     else
       let w2 := set_conn (connect_ok e) w1 in
       if negb (connect_ok e) then Returns CURLE_FAILED_INIT w2
       else
         Returns (if bool_decide (egress_result w ≠ CURLE_OK)
                  then CURLE_FAILED_INIT else CURLE_OK)
           (log (egress_calls w)
              (set_engine_out (egress_loop (engine_out w)).1.2 w2))).
Proof.
  unfold Curl_quic_connect, quiche_config_set, flush_egress, egress_result,
    egress_calls.
  destruct (config_new_ok e); [|done]. cbn [negb]. cbv zeta. run_M.
  destruct (bool_decide (rand_result e ≠ CURLE_OK)); [done|]. run_M.
  destruct (connect_ok e); [|done]. run_M.
  destruct (egress_loop (engine_out w)) as [[r q] cs]. run_M.
  by destruct (bool_decide (r ≠ CURLE_OK)).
Qed.

(** X12: [Curl_quic_connect] assigns [qs->cfg] first: NULL, with
    CURLE_FAILED_INIT as result, when the engine gives no configuration,
    and else the configuration, to which it writes its eight settings in
    the order of the source. [qs->scid] then holds what [Curl_rand] left;
    a failure of [Curl_rand] is returned as it is. [qs->conn] holds the
    answer of [quiche_connect]; NULL gives CURLE_FAILED_INIT. On these
    exits the configuration stays as assigned and nothing else has
    changed: neither the socket nor the engine's packets have been
    touched. Only when all three have succeeded is the egress pump run,
    once; the result is CURLE_OK when it succeeds and CURLE_FAILED_INIT
    when it fails. *)
Theorem connect_assigns_then_flushes (w : world) (e : connect_answers) :
  (config_new_ok e = false →
   returned (Curl_quic_connect e w) = Some CURLE_FAILED_INIT
   ∧ after (Curl_quic_connect e w) = set_cfg None w)
  ∧ (config_new_ok e = true → rand_result e ≠ CURLE_OK →
     returned (Curl_quic_connect e w) = Some (rand_result e)
     ∧ after (Curl_quic_connect e w)
       = set_scid (rand_bytes e) (set_cfg (Some connect_settings) w))
  ∧ (config_new_ok e = true → rand_result e = CURLE_OK → connect_ok e = false →
     returned (Curl_quic_connect e w) = Some CURLE_FAILED_INIT
     ∧ after (Curl_quic_connect e w)
       = set_conn false
           (set_scid (rand_bytes e) (set_cfg (Some connect_settings) w)))
  ∧ (config_new_ok e = true → rand_result e = CURLE_OK → connect_ok e = true →
     returned (Curl_quic_connect e w)
     = Some (if bool_decide (egress_result w = CURLE_OK)
             then CURLE_OK else CURLE_FAILED_INIT)
     ∧ cfg (after (Curl_quic_connect e w)) = Some connect_settings
     ∧ scid (after (Curl_quic_connect e w)) = rand_bytes e
     ∧ conn (after (Curl_quic_connect e w)) = true
     ∧ calls_of (Curl_quic_connect e) w = egress_calls w).
Proof.
  split; [|split; [|split]].
  - intros H. rewrite Curl_quic_connect_run, H. done.
  - intros H1 H2. rewrite Curl_quic_connect_run, H1. cbn [negb]. cbv zeta.
    by rewrite bool_decide_true by done.
  - intros H1 H2 H3. rewrite Curl_quic_connect_run, H1, H3. cbn [negb]. cbv zeta.
    by rewrite bool_decide_false by (by rewrite H2; intros ?).
  - intros H1 H2 H3.
    assert (Curl_quic_connect e w
            = Returns (if bool_decide (egress_result w ≠ CURLE_OK)
                       then CURLE_FAILED_INIT else CURLE_OK)
                (log (egress_calls w)
                   (set_engine_out (egress_loop (engine_out w)).1.2
                      (set_conn true
                         (set_scid (rand_bytes e)
                            (set_cfg (Some connect_settings) w)))))) as Hrun.
    { rewrite Curl_quic_connect_run, H1, H3. cbn [negb]. cbv zeta.
      by rewrite bool_decide_false by (by rewrite H2; intros ?). }
    split; [|split; [|split; [|split]]]; try by rewrite Hrun.
    + rewrite Hrun. cbn.
      by destruct (decide (egress_result w = CURLE_OK)) as [->|?];
        [|rewrite bool_decide_true, bool_decide_false by done].
    + apply calls_of_log. by rewrite Hrun.
Qed.

Lemma connect_witness :
  returned (Curl_quic_connect (mk_connect_answers true CURLE_OK (str "id") true)
              a_flushing_world)
  = Some CURLE_OK
  ∧ cfg (after (Curl_quic_connect
                  (mk_connect_answers true CURLE_OK (str "id") true)
                  a_flushing_world))
    = Some connect_settings
  ∧ scid (after (Curl_quic_connect
                   (mk_connect_answers true CURLE_OK (str "id") true)
                   a_flushing_world))
    = str "id"
  ∧ conn (after (Curl_quic_connect
                   (mk_connect_answers true CURLE_OK (str "id") true)
                   a_flushing_world))
    = true
  ∧ calls_of (Curl_quic_connect
                (mk_connect_answers true CURLE_OK (str "id") true))
      a_flushing_world
    = egress_calls a_flushing_world.
Proof.
  exact (proj2 (proj2 (proj2
    (connect_assigns_then_flushes a_flushing_world
       (mk_connect_answers true CURLE_OK (str "id") true))))
    eq_refl eq_refl eq_refl).
Defined.

(** X13: the result of the first [h3_stream_send] is that of
    [http_request]: its buffer length, with [*curlcode] left unwritten,
    when that returns CURLE_OK, and -1 with CURLE_SEND_ERROR otherwise. A
    later send returns the count the engine took when the write and the
    egress pump succeed, and -1 with CURLE_SEND_ERROR when the write fails
    (the pump is then not run) or the pump fails. *)
Theorem send_results (w : world) (mem : bytes) :
  (h3c w = false → ∀ r, returned (http_request mem w) = Some r →
   returned (h3_stream_send mem w)
   = Some (if bool_decide (r = CURLE_OK) then (Z.of_nat (length mem), None)
           else ((-1)%Z, Some CURLE_SEND_ERROR)))
  ∧ (h3c w = true → (stream_send_answer w mem < 0)%Z →
     returned (h3_stream_send mem w) = Some ((-1)%Z, Some CURLE_SEND_ERROR)
     ∧ calls_of (h3_stream_send mem) w = [c_quiche_conn_stream_send 0 mem true])
  ∧ (h3c w = true → (0 ≤ stream_send_answer w mem)%Z →
     returned (h3_stream_send mem w)
     = Some (if bool_decide (egress_result w = CURLE_OK)
             then (stream_send_answer w mem, Some CURLE_OK)
             else ((-1)%Z, Some CURLE_SEND_ERROR))).
Proof.
  split; [|split].
  - intros Hh r Hr. unfold h3_stream_send. run_M. rewrite Hh. run_M.
    destruct (http_request mem w) as [r' w'|f w']; [|done].
    injection Hr as ->.
    by destruct (decide (r = CURLE_OK)) as [->|?];
      [|rewrite bool_decide_true, bool_decide_false by done].
  - intros Hh Ha. split.
    + revert Ha. unfold h3_stream_send, stream_send_answer. run_M. rewrite Hh.
      run_M. unfold quiche_conn_stream_send. run_M.
      destruct (stream_send_rets w) as [|x rets]; run_M; intros Ha; [lia|].
      by destruct (Z.ltb_spec x 0); [|lia].
    + rewrite h3_stream_send_later by done.
      by destruct (Z.ltb_spec (stream_send_answer w mem) 0); [|lia].
  - intros Hh Ha. revert Ha.
    unfold h3_stream_send, stream_send_answer, egress_result, flush_egress.
    run_M. rewrite Hh. run_M. unfold quiche_conn_stream_send. run_M.
    destruct (stream_send_rets w) as [|x rets]; run_M; intros Ha;
      match goal with |- context [(?y <? 0)%Z] =>
        destruct (Z.ltb_spec y 0); [lia|] end; run_M;
      destruct (egress_loop (engine_out w)) as [[r q] cs]; run_M;
      by destruct (decide (r = CURLE_OK)) as [->|?];
        [|rewrite bool_decide_true, bool_decide_false by done].
Qed.

Lemma send_results_witness :
  returned (h3_stream_send (str "body") a_short_write_world)
  = Some (2%Z, Some CURLE_OK).
Proof.
  apply (proj2 (proj2 (send_results a_short_write_world (str "body")))).
  - reflexivity.
  - vm_compute. discriminate.
Defined.

(** ** quiche_getsock *)

Lemma keep_send_test (keepon a b : Z) :
  (0 ≤ a)%Z → (0 ≤ b)%Z → a ≠ b →
  (Z.land keepon (Z.lor (2 ^ a) (2 ^ b)) =? 2 ^ a)%Z
  = Z.testbit keepon a && negb (Z.testbit keepon b).
Proof.
  intros Ha Hb Hab.
  assert (∀ n, Z.testbit (Z.land keepon (Z.lor (2 ^ a) (2 ^ b))) n
               = Z.testbit keepon n && ((a =? n)%Z || (b =? n)%Z)) as Hbits.
  { intros n. by rewrite Z.land_spec, Z.lor_spec, !Z.pow2_bits_eqb. }
  destruct (Z.eqb_spec (Z.land keepon (Z.lor (2 ^ a) (2 ^ b))) (2 ^ a)) as [E|E].
  - pose proof (Hbits a) as H1. pose proof (Hbits b) as H2.
    rewrite E, Z.pow2_bits_eqb in H1, H2 by done.
    rewrite Z.eqb_refl in H1, H2.
    destruct (Z.eqb_spec a b); [done|].
    destruct (Z.eqb_spec b a); [done|].
    by destruct (Z.testbit keepon a), (Z.testbit keepon b).
  - destruct (Z.testbit keepon a) eqn:Ta; [|done].
    destruct (Z.testbit keepon b) eqn:Tb; [done|].
    destruct E. apply Z.bits_inj'. intros n Hn.
    rewrite Hbits, Z.pow2_bits_eqb by done.
    destruct (Z.eqb_spec a n) as [<-|?]; [by rewrite Ta|].
    destruct (Z.eqb_spec b n) as [<-|?]; [by rewrite Tb|].
    by rewrite andb_false_r.
Qed.

(** X14: when the flags are distinct single bits, the bitmap of
    [quiche_getsock] always has the read flag, has the write flag exactly
    when [keepon] has KEEP_SEND set and KEEP_SEND_PAUSE clear, and has no
    other bit. *)
Theorem getsock_reads_and_writes_when_sending (r wr a b keepon : Z) :
  (0 ≤ r)%Z → (0 ≤ wr)%Z → r ≠ wr → (0 ≤ a)%Z → (0 ≤ b)%Z → a ≠ b →
  Z.testbit (quiche_getsock 0 (2 ^ r) (2 ^ wr) (2 ^ a) (2 ^ b) keepon) r = true
  ∧ Z.testbit (quiche_getsock 0 (2 ^ r) (2 ^ wr) (2 ^ a) (2 ^ b) keepon) wr
    = Z.testbit keepon a && negb (Z.testbit keepon b)
  ∧ ∀ n, n ≠ r → n ≠ wr →
      Z.testbit (quiche_getsock 0 (2 ^ r) (2 ^ wr) (2 ^ a) (2 ^ b) keepon) n
      = false.
Proof.
  intros Hr Hwr Hne Ha Hb Hab. unfold quiche_getsock. cbv zeta.
  rewrite keep_send_test by done.
  destruct (Z.testbit keepon a && negb (Z.testbit keepon b)).
  - repeat split; [| |intros n H1 H2];
      rewrite !Z.lor_spec, Z.bits_0, !Z.pow2_bits_eqb by done.
    + by rewrite Z.eqb_refl.
    + by rewrite Z.eqb_refl, orb_true_r.
    + destruct (Z.eqb_spec r n); [done|]. by destruct (Z.eqb_spec wr n).
  - repeat split; [| |intros n H1 H2];
      rewrite !Z.lor_spec, Z.bits_0, !Z.pow2_bits_eqb by done.
    + by rewrite Z.eqb_refl.
    + by destruct (Z.eqb_spec r wr).
    + by destruct (Z.eqb_spec r n).
Qed.

Lemma getsock_witness :
  Z.testbit (quiche_getsock 0 (2 ^ 0) (2 ^ 16) (2 ^ 1) (2 ^ 5) 3) 0 = true
  ∧ Z.testbit (quiche_getsock 0 (2 ^ 0) (2 ^ 16) (2 ^ 1) (2 ^ 5) 3) 16
    = Z.testbit 3 1 && negb (Z.testbit 3 5)
  ∧ ∀ n, n ≠ 0%Z → n ≠ 16%Z →
      Z.testbit (quiche_getsock 0 (2 ^ 0) (2 ^ 16) (2 ^ 1) (2 ^ 5) 3) n = false.
Proof.
  apply (getsock_reads_and_writes_when_sending 0 16 1 5 3); lia.
Defined.

(** ** Further properties of the translation *)

Lemma move_authority_Permutation {A} (nva : list A) (authority_idx : nat) :
  move_authority nva authority_idx ≡ₚ nva.
Proof.
  destruct (nva !! authority_idx) as [x|] eqn:Hx.
  - destruct (decide (AUTHORITY_DST_IDX < authority_idx)) as [Hk|Hk].
    + rewrite (move_authority_rotate _ _ _ Hk Hx).
      rewrite <- (take_drop_middle nva authority_idx x Hx) at 4.
      unfold AUTHORITY_DST_IDX in Hk.
      replace (take authority_idx nva)
        with (take 3 nva ++ take (authority_idx - 3) (drop 3 nva)).
      * rewrite <- app_assoc. apply Permutation_app_head.
        apply Permutation_middle.
      * rewrite <- (take_drop 3 (take authority_idx nva)).
        rewrite take_take, skipn_firstn_comm.
        by replace (3 `min` authority_idx) with 3 by lia.
    + unfold move_authority. destruct (_ && _); [|done]. rewrite Hx.
      unfold AUTHORITY_DST_IDX in *.
      destruct authority_idx as [|[|[|[|k]]]]; try lia; cbn [shift_back];
        unfold AUTHORITY_DST_IDX; cbn [Nat.ltb Nat.leb];
        by rewrite list_insert_id.
  - unfold move_authority. destruct (_ && _); [|done]. by rewrite Hx.
Qed.

(** X15: the rotation that brings :authority forward only reorders: for
    every array and every index, the result has the entries of the array,
    each as often as before. *)
Theorem move_authority_only_reorders {A} (nva : list A) (authority_idx : nat) :
  move_authority nva authority_idx ≡ₚ nva.
Proof. apply move_authority_Permutation. Qed.

Lemma last_host_first_only (hs : list (bytes * bytes)) :
  (∀ j h, 0 < j → hs !! j = Some h → is_host h.1 = false) →
  last_host hs 3 0 = 0 ∨ last_host hs 3 0 = AUTHORITY_DST_IDX.
Proof.
  intros Hno. destruct hs as [|h hs]; [by left|]. cbn [last_host].
  rewrite last_host_none.
  - destruct (is_host h.1); [by right|by left].
  - intros j h' E. apply (Hno (S j) h'); [lia|done].
Qed.

(** X16: when no header line after the first one is named host, a
    well-formed block is translated in source order: the three synthesized
    entries, then one entry per line as the lines come (a first line named
    host is already where :authority belongs). *)
Theorem source_order_without_late_host (ssl : bool) (m p v : bytes)
    (hs : list (bytes * bytes)) :
  wf_request_line m p v → Forall wf_header hs →
  (∀ j h, 0 < j → hs !! j = Some h → is_host h.1 = false) →
  translate_headers ssl true (header_block m p v hs)
  = Translated (pseudo_headers ssl m p ++ (entry_of <$> hs)).
Proof.
  intros Hr Hhs Hno. rewrite translate_wf by done.
  by rewrite move_authority_idle by (by apply last_host_first_only).
Qed.

Lemma source_order_witness :
  translate_headers true true
    (header_block (str "GET") (str "/") (str "HTTP/1.1")
       [(str "Host", str " example.com"); (str "Accept", str " */*")])
  = Translated
      (pseudo_headers true (str "GET") (str "/")
       ++ (entry_of <$> [(str "Host", str " example.com");
                          (str "Accept", str " */*")])).
Proof.
  apply (source_order_without_late_host true (str "GET") (str "/")
           (str "HTTP/1.1")
           [(str "Host", str " example.com"); (str "Accept", str " */*")]).
  - wf_line.
  - wf_hdrs.
  - intros [|[|j]] h Hj E; simpl in E; try lia; try discriminate.
    injection E as <-. reflexivity.
Defined.

Lemma ltrim_spec (v : bytes) :
  ∃ blanks,
    Forall (λ c, is_blank c = true) blanks
    ∧ v = blanks ++ ltrim v ∧ trimmed (ltrim v).
Proof.
  unfold ltrim. induction v as [|c v (blanks & Hb & Hv & Ht)].
  - by exists [].
  - cbn [skip_blanks]. destruct (is_blank c) eqn:Hc.
    + rewrite skip_blanks_shift. cbn [Nat.add drop].
      exists (c :: blanks). split; [by constructor|].
      split; [by rewrite Hv at 1|done].
    + exists []. by repeat split.
Qed.

(** X17: in the translation of a well-formed block every entry is one of
    the three synthesized ones or comes from a header line; the latter has
    the line's name (or :authority for host) and, as value, what follows
    the colon without its leading spaces and tabs, and nothing else
    removed. *)
Theorem values_lose_leading_blanks_only (ssl : bool) (m p v : bytes)
    (hs : list (bytes * bytes)) :
  wf_request_line m p v → Forall wf_header hs →
  ∃ nva,
    translate_headers ssl true (header_block m p v hs) = Translated nva
    ∧ ∀ e, e ∈ nva →
        e ∈ pseudo_headers ssl m p
        ∨ ∃ h blanks,
            h ∈ hs
            ∧ name e = (if is_host h.1 then str ":authority" else h.1)
            ∧ Forall (λ c, is_blank c = true) blanks
            ∧ h.2 = blanks ++ value e
            ∧ trimmed (value e).
Proof.
  intros Hr Hhs. eexists. split; [by apply translate_wf|].
  intros e He.
  rewrite (move_authority_Permutation _ _) in He.
  unfold in_source_order in He. apply elem_of_app in He as [He|He]; [by left|].
  right. apply list_elem_of_fmap in He as (h & -> & Hh).
  destruct (ltrim_spec h.2) as (blanks & Hb & Hv & Ht).
  exists h, blanks. by repeat split.
Qed.

Lemma values_witness :
  ∃ nva,
    translate_headers true true
      (header_block (str "GET") (str "/") (str "HTTP/1.1")
         [(str "Accept", str "   text/html ")])
    = Translated nva
    ∧ ∀ e, e ∈ nva →
        e ∈ pseudo_headers true (str "GET") (str "/")
        ∨ ∃ h blanks,
            h ∈ [(str "Accept", str "   text/html ")]
            ∧ name e = (if is_host h.1 then str ":authority" else h.1)
            ∧ Forall (λ c, is_blank c = true) blanks
            ∧ h.2 = blanks ++ value e
            ∧ trimmed (value e).
Proof.
  apply (values_lose_leading_blanks_only true (str "GET") (str "/")
           (str "HTTP/1.1") [(str "Accept", str "   text/html ")]).
  - wf_line.
  - wf_hdrs.
Defined.

(** ** Header lines without a name *)

Lemma header_step_nameless (mem : bytes) (i line_end a : nat) (nva : slots)
    (l tail : bytes) :
  drop (line_end + 2) mem = l ++ CR :: tail →
  CR ∉ l → (COLON ∉ l) ∨ head l = Some COLON →
  header_step mem i line_end a nva = StepFail.
Proof.
  intros Hd Hl Hcolon.
  assert (length mem = line_end + 2 + length l + 1 + length tail) as Hlen.
  { assert (length (drop (line_end + 2) mem) = length (l ++ CR :: tail))
      as E by (by rewrite Hd).
    rewrite length_drop, length_app in E. simpl in *. lia. }
  unfold header_step. cbv zeta.
  destruct (Nat.ltb_spec (length mem) (line_end + 2)) as [?|_]; [lia|].
  unfold memchr. rewrite Hd, memchr_from_found by (try done; lia).
  destruct (Nat.eqb_spec (line_end + 2 + length l) (line_end + 2)) as [E|Hne];
    [done|].
  destruct (is_blank _); [done|].
  replace (line_end + 2 + length l - (line_end + 2)) with (length l) by lia.
  destruct Hcolon as [Hc|Hc].
  - rewrite scan_colon_absent by done.
    by rewrite Nat.eqb_refl, orb_true_r.
  - destruct l as [|c l]; [done|]. injection Hc as ->.
    cbn [app scan_colon length]. unfold COLON at 1.
    cbn [Ascii.eqb Bool.eqb]. by rewrite Nat.eqb_refl.
Qed.

Lemma nameless_line_fails (ssl : bool) (mem : bytes) :
  has_nameless_line mem → translate_headers ssl true mem = GotoFail true.
Proof.
  intros (rl & before & l & later & -> & Hrl & Hb & Hl & Hc).
  set (X := l ++ CRLF ++ later ++ CRLF).
  remember (rl ++ CRLF ++ header_lines before ++ X) as mem eqn:Hmem.
  assert (∃ extra, crlf_pairs mem + 1 - 3 = length before + S extra) as [extra Hn].
  { subst mem. rewrite crlf_pairs_skip, crlf_pairs_crlf, crlf_pairs_lines by done.
    unfold X. rewrite crlf_pairs_skip, crlf_pairs_crlf by done.
    pose proof (crlf_pairs_ends later).
    exists (crlf_pairs (later ++ CRLF) - 1). lia. }
  assert (∀ i a nva, header_loop mem (crlf_pairs mem + 1 - 3) i (length rl) a nva
                     = LoopFail) as Hloop.
  { intros i a nva. rewrite Hn, Hmem.
    destruct (header_loop_prefix before Hb rl X i a nva (S extra))
      as (a' & nva' & ->).
    cbn [header_loop].
    rewrite (header_step_nameless _ _ _ _ _ l (LF :: later ++ CRLF)); try done.
    replace (rl ++ CRLF ++ header_lines before ++ X)
      with ((rl ++ CRLF ++ header_lines before) ++ X) by app_eq.
    apply drop_app_length'. len_lia. }
  assert (memchr mem 0 CR (length mem) = Some (length rl)) as Hfind.
  { unfold memchr. rewrite drop_0, Hmem. unfold CRLF at 1. cbn [app].
    apply memchr_from_found; [done|len_lia]. }
  unfold translate_headers. cbv zeta. rewrite count_headers_total.
  destruct (Nat.ltb_spec (crlf_pairs mem) 2) as [?|_]; [lia|].
  cbn [negb]. rewrite Hfind.
  destruct (memchr mem 0 SP (length rl)) as [e|]; [|done].
  destruct (e =? 0); [done|].
  destruct (rscan_space mem (e + 1) (length rl - (e + 1))) as [e2|]; [|done].
  destruct (e2 =? e + 1); [done|].
  by rewrite Hloop.
Qed.

(** X18: a block in which, after well-formed header lines, comes a line
    without a colon (an empty line before the last one included) or a line
    that begins with the colon makes [http_request] take its [fail] exit
    with the array allocated: it returns CURLE_SEND_ERROR, frees the array
    and submits nothing. *)
Theorem line_without_name_fails (w : world) (mem : bytes) :
  malloc_ok w = true → has_nameless_line mem →
  returned (http_request mem w) = Some CURLE_SEND_ERROR
  ∧ heap_live (after (http_request mem w)) = heap_live w
  ∧ calls_of (http_request mem) w
    = [c_quiche_h3_config_new; c_quiche_h3_conn_new_with_transport;
       c_malloc; c_free].
Proof.
  intros Hm H.
  assert (translate_headers (ssl w) (malloc_ok w) mem = GotoFail true) as E.
  { rewrite Hm. by apply nameless_line_fails. }
  exact (http_request_goto_fail w mem true E Hm).
Qed.

Lemma line_without_name_witness :
  returned (http_request nameless_block a_get_world) = Some CURLE_SEND_ERROR
  ∧ heap_live (after (http_request nameless_block a_get_world)) = 0
  ∧ calls_of (http_request nameless_block) a_get_world
    = [c_quiche_h3_config_new; c_quiche_h3_conn_new_with_transport;
       c_malloc; c_free].
Proof.
  apply (line_without_name_fails a_get_world nameless_block).
  - reflexivity.
  - exists (str "GET / HTTP/1.1"), [(str "Accept", str " a")],
      (str "no colon here"), [].
    split; [reflexivity|]. split; [compute_done|].
    split; [wf_hdrs|]. split; [compute_done|]. left. compute_done.
Defined.

(** ** The pointers of the header loop *)

Lemma scan_colon_range (s : bytes) (n p : nat) :
  p ≤ scan_colon s n p ≤ p + n.
Proof.
  revert n p. induction s as [|a s IH]; intros [|n] p; simpl; try lia.
  destruct (Ascii.eqb a COLON); [lia|]. specialize (IH n (S p)). lia.
Qed.

Lemma scan_colon_stops (s : bytes) (n p : nat) :
  scan_colon s n p < p + n → n ≤ length s →
  s !! (scan_colon s n p - p) = Some COLON.
Proof.
  revert n p. induction s as [|a s IH]; intros [|n] p; simpl; try lia.
  destruct (Ascii.eqb_spec a COLON) as [->|_]; intros Hq Hn.
  - by rewrite Nat.sub_diag.
  - pose proof (scan_colon_range s n (S p)).
    replace (scan_colon s n (S p) - p) with (S (scan_colon s n (S p) - S p))
      by lia.
    apply IH; lia.
Qed.

(** X19: whenever a turn of the header loop stores an entry, whatever the
    buffer, its pointers are in order inside the buffer: the line starts
    before its colon, the colon comes before the CR that ends the line,
    that CR is a byte of the buffer, and the value starts after the colon
    and not beyond the CR. So the two lengths of the entry are differences
    that do not wrap, and its name (unless it is the literal :authority)
    and its value are bytes of the buffer. *)
Theorem stored_entry_lies_in_the_buffer (mem : bytes) (i le a le' a' : nat)
    (nva nva' : slots) :
  header_step mem i le a nva = StepNext le' a' nva' →
  let hdbuf := le + 2 in
  let end_ := scan_colon (drop hdbuf mem) (le' - hdbuf) hdbuf in
  let vstart := skip_blanks (drop (end_ + 1) mem) (end_ + 1) in
  hdbuf < end_ ∧ end_ < le' ∧ le' < length mem
  ∧ mem !! end_ = Some COLON ∧ mem !! le' = Some CR
  ∧ end_ < vstart ∧ vstart ≤ le'
  ∧ ∃ nm,
      nva' = <[i := Some (mk_header nm (sub mem vstart (le' - vstart)))]> nva
      ∧ value_len (mk_header nm (sub mem vstart (le' - vstart))) = le' - vstart
      ∧ (nm = str ":authority"
         ∨ nm = sub mem hdbuf (end_ - hdbuf) ∧ length nm = end_ - hdbuf).
Proof.
  unfold header_step. cbv zeta.
  destruct (Nat.ltb_spec (length mem) (le + 2)) as [?|Hlen]; [done|].
  destruct (memchr mem (le + 2) CR (length mem - (le + 2))) as [q|] eqn:E;
    [|done].
  destruct (Nat.eqb_spec q (le + 2)) as [?|Hq]; [done|].
  destruct (is_blank _); [done|].
  destruct (Nat.eqb_spec (scan_colon (drop (le + 2) mem) (q - (le + 2)) (le + 2))
              (le + 2)) as [?|Hs]; [done|].
  destruct (Nat.eqb_spec (scan_colon (drop (le + 2) mem) (q - (le + 2)) (le + 2))
              q) as [?|He]; [done|].
  cbn [orb]. intros [= <- <- <-].
  apply memchr_from_Some in E as (l & rest & Hd & Hl & Hql).
  assert (length mem = le + 2 + length l + 1 + length rest) as Hmem.
  { assert (length (drop (le + 2) mem) = length (l ++ CR :: rest)) as E
      by (by rewrite Hd).
    rewrite length_drop, length_app in E. simpl in E. lia. }
  set (end_ := scan_colon (drop (le + 2) mem) (q - (le + 2)) (le + 2)) in *.
  pose proof (scan_colon_range (drop (le + 2) mem) (q - (le + 2)) (le + 2))
    as Hr. fold end_ in Hr.
  assert (mem !! end_ = Some COLON) as Hcolon.
  { replace end_ with (le + 2 + (end_ - (le + 2))) by lia.
    rewrite <- lookup_drop. apply scan_colon_stops; [fold end_; lia|].
    rewrite length_drop. lia. }
  assert (mem !! q = Some CR) as Hcr.
  { replace q with (le + 2 + length l) by lia.
    rewrite <- lookup_drop, Hd. by rewrite list_lookup_middle. }
  set (vstart := skip_blanks (drop (end_ + 1) mem) (end_ + 1)).
  assert (end_ < vstart ∧ vstart ≤ q) as [Hv1 Hv2].
  { assert (drop (end_ + 1) mem
            = drop (end_ + 1 - (le + 2)) l ++ CR :: rest) as Hdv.
    { replace (drop (end_ + 1) mem)
        with (drop (end_ + 1 - (le + 2)) (drop (le + 2) mem))
        by (rewrite drop_drop; f_equal; lia).
      rewrite Hd. apply drop_app_le. lia. }
    unfold vstart. rewrite skip_blanks_shift, Hdv.
    rewrite skip_blanks_stop by apply is_blank_CR.
    pose proof (skip_blanks_le (drop (end_ + 1 - (le + 2)) l)) as Hle.
    rewrite length_drop in Hle. lia. }
  split; [lia|]. split; [lia|]. split; [lia|]. split; [done|]. split; [done|].
  split; [lia|]. split; [done|].
  eexists. split; [reflexivity|]. split.
  - unfold value_len, sub. cbn [value]. rewrite length_take, length_drop.
    fold vstart. lia.
  - destruct (_ && _); [by left|right]. split; [done|].
    unfold sub. rewrite length_take, length_drop. lia.
Qed.

Lemma stored_entry_witness :
  let mem := one_header_block in
  let nva := replicate 4 None in
  let nva' := <[3 := Some (mk_header (str "Accept") (str "*/*"))]> nva in
  let end_ := scan_colon (drop 16 mem) (28 - 16) 16 in
  let vstart := skip_blanks (drop (end_ + 1) mem) (end_ + 1) in
  16 < end_ ∧ end_ < 28 ∧ 28 < length mem
  ∧ mem !! end_ = Some COLON ∧ mem !! 28 = Some CR
  ∧ end_ < vstart ∧ vstart ≤ 28
  ∧ ∃ nm,
      nva' = <[3 := Some (mk_header nm (sub mem vstart (28 - vstart)))]> nva
      ∧ value_len (mk_header nm (sub mem vstart (28 - vstart))) = 28 - vstart
      ∧ (nm = str ":authority"
         ∨ nm = sub mem 16 (end_ - 16) ∧ length nm = end_ - 16).
Proof.
  apply (stored_entry_lies_in_the_buffer one_header_block 3 14 0 28 0
           (replicate 4 None)
           (<[3 := Some (mk_header (str "Accept") (str "*/*"))]>
              (replicate 4 None))).
  vm_compute. reflexivity.
Defined.
